(** * Tic-tac-toe outcome evaluator and move engine (src/src/App.tsx)

    A shallow embedding of [calculateWinner], [isBoardFull], [minimax],
    [bestMoveFor] and of the difficulty-tiered move pickers that the turn
    controller builds over its private copy of the board.

    Modelling conventions.
    - [Mark] is ["X" | "O" | null]: [option player], with [None] for [null].
    - A board is a JavaScript array of marks: [list Mark].  Reading
      [board[i]] is stdpp's [board !! i]; the outer [None] is the value
      [undefined] that JavaScript yields past the end of the array.
    - The search mutates the array it is given ([board[i] = current], then
      [board[i] = null]).  The mutation is kept: every operation that touches
      the array lives in the state monad [Search] below.
    - [Math.random()] is a rational [u] with [0 <= u < 1]; results that
      depend on it are stated for every such [u].
    - Scores and depths are JavaScript numbers.  Only integers and the two
      infinities occur; scores are the type [number] below, depths are [Z].
    - [minimax] recurses on the array it mutates; the model recurses on a
      budget of levels, [search_fuel], which a 9-cell board never uses up. *)

From Stdlib Require Import ZArith QArith Qround Lia.
From stdpp Require Import base option list.

Set Default Proof Using "Type".
Open Scope Z_scope.

(** ** Marks, boards, lines *)

Inductive player := X | O.

Abbreviation Mark := (option player).

Abbreviation Board := (list Mark).

Definition player_eqb (p q : player) : bool :=
  match p, q with
  | X, X | O, O => true
  | _, _ => false
  end.

(** [Boolean(v)] for a value read from a board: [undefined] and [null] are
    falsy, a mark is truthy. *)
Definition truthy (v : option Mark) : bool :=
  match v with
  | Some (Some _) => true
  | _ => false
  end.

(** [v === w] on values read from a board. *)
Definition strict_eqb (v w : option Mark) : bool :=
  match v, w with
  | None, None => true
  | Some None, Some None => true
  | Some (Some p), Some (Some q) => player_eqb p q
  | _, _ => false
  end.

Definition WIN_LINES : list (nat * nat * nat) :=
  [ (0, 1, 2); (3, 4, 5); (6, 7, 8);
    (0, 3, 6); (1, 4, 7); (2, 5, 8);
    (0, 4, 8); (2, 4, 6) ]%nat.

Record WinResult := { winner : Mark; line : option (list nat) }.

(** The test of the [if] inside [calculateWinner]. *)
Definition line_complete (board : Board) (l : nat * nat * nat) : bool :=
  let '(a, b, c) := l in
  truthy (board !! a)
  && strict_eqb (board !! a) (board !! b)
  && strict_eqb (board !! a) (board !! c).

Fixpoint scan_lines (board : Board) (ls : list (nat * nat * nat)) : WinResult :=
  match ls with
  | [] => {| winner := None; line := None |}
  | (a, b, c) :: rest =>
      if line_complete board (a, b, c)
      then {| winner := default None (board !! a); line := Some [a; b; c] |}
      else scan_lines board rest
  end.

Definition calculateWinner (board : Board) : WinResult :=
  scan_lines board WIN_LINES.

(** [board.every(Boolean)] *)
Definition isBoardFull (board : Board) : bool :=
  forallb (fun v => truthy (Some v)) board.

Definition opponent (p : player) : player :=
  match p with X => O | O => X end.

(** ** Numbers *)

Inductive number := NegInfinity | Int (z : Z) | Infinity.

Definition Math_max (a b : number) : number :=
  match a, b with
  | Infinity, _ | _, Infinity => Infinity
  | NegInfinity, n | n, NegInfinity => n
  | Int x, Int y => Int (Z.max x y)
  end.

Definition Math_min (a b : number) : number :=
  match a, b with
  | NegInfinity, _ | _, NegInfinity => NegInfinity
  | Infinity, n | n, Infinity => n
  | Int x, Int y => Int (Z.min x y)
  end.

(** [a > b] *)
Definition number_gtb (a b : number) : bool :=
  match a, b with
  | NegInfinity, _ => false
  | _, Infinity => false
  | _, NegInfinity => true
  | Infinity, _ => true
  | Int x, Int y => y <? x
  end.

(** [a === b] *)
Definition number_eqb (a b : number) : bool :=
  match a, b with
  | NegInfinity, NegInfinity => true
  | Infinity, Infinity => true
  | Int x, Int y => x =? y
  | _, _ => false
  end.

(** ** The search monad: a mutable board, and the two ways not to return *)

(** A computation over the array either returns a value and leaves the array
    in some state, or the model stops: [OutOfFuel] when the recursion budget
    of [minimax_rec] is used up; [OutOfRange] when a random index falls past
    the end of the array it selects from (JavaScript would go on with
    [undefined]) or a cell past the end of the board is written (JavaScript
    would grow the array).  Neither happens on a 9-cell board with a draw in
    [0,1). *)
Inductive outcome (A : Type) :=
  | Returns (a : A) (board : Board)
  | OutOfFuel
  | OutOfRange.
Arguments Returns {A} a board.
Arguments OutOfFuel {A}.
Arguments OutOfRange {A}.

Definition Search (A : Type) := Board -> outcome A.

Definition ret {A} (a : A) : Search A := fun board => Returns a board.

Definition bind {A B} (m : Search A) (k : A -> Search B) : Search B :=
  fun board =>
    match m board with
    | Returns a board' => k a board'
    | OutOfFuel => OutOfFuel
    | OutOfRange => OutOfRange
    end.

Notation "x <- m ;; k" := (bind m (fun x => k))
  (at level 100, m at next level, right associativity).
Notation "m ;;; k" := (bind m (fun _ => k))
  (at level 100, right associativity).

(** [board[i]] *)
Definition read (i : nat) : Search (option Mark) :=
  fun board => Returns (board !! i) board.

(** [board[i] = v].  Inside the array the cell is replaced; the model does
    not follow a write past the end. *)
Definition write (i : nat) (v : Mark) : Search unit :=
  fun board =>
    if (i <? length board)%nat then Returns tt (<[i := v]> board)
    else OutOfRange.

(** A pure query on the current board. *)
Definition gets {A} (f : Board -> A) : Search A :=
  fun board => Returns (f board) board.

Definition out_of_fuel {A} : Search A := fun _ => OutOfFuel.
Definition out_of_range {A} : Search A := fun _ => OutOfRange.

(** [for (let i = 0; i < 9; i++) body], threading the loop's variables. *)
Fixpoint for_each {St} (ixs : list nat) (body : nat -> St -> Search St) (s : St) : Search St :=
  match ixs with
  | [] => ret s
  | i :: rest => s' <- body i s ;; for_each rest body s'
  end.

(** ** minimax *)

Fixpoint minimax_rec (fuel : nat) (current ai : player) (depth : Z) : Search number :=
  match fuel with
  | 0%nat => out_of_fuel
  | S fuel' =>
      w <- gets calculateWinner ;;
      match winner w with
      | Some p => ret (if player_eqb p ai then Int (10 - depth) else Int (depth - 10))
      | None =>
          full <- gets isBoardFull ;;
          if full then ret (Int 0)
          else
            let maximizing := player_eqb current ai in
            for_each (seq 0 9)
              (fun i best =>
                 c <- read i ;;
                 if truthy c then ret best
                 else
                   write i (Some current) ;;;
                   score <- minimax_rec fuel' (opponent current) ai (depth + 1) ;;
                   write i None ;;;
                   ret (if maximizing then Math_max best score else Math_min best score))
              (if maximizing then NegInfinity else Infinity)
      end
  end.

(** The recursion goes one level deeper per empty cell, so on a 9-cell board
    ten levels are never exhausted (lemma [minimax_rec_returns]), and a larger
    budget gives the same result (lemma [minimax_rec_fuel_irrelevant]). *)
Definition search_fuel : nat := 10.

Definition minimax (current ai : player) (depth : Z) : Search number :=
  minimax_rec search_fuel current ai depth.

(** ** bestMoveFor *)

Record ScoredMove := { idx : nat; score : number }.

(** [Math.floor(u * n)] for the draw [u] of [Math.random()]. *)
Definition random_index (u : Q) (n : nat) : nat :=
  Z.to_nat (Qfloor (u * inject_Z (Z.of_nat n))).

(** [arr[Math.floor(Math.random() * arr.length)]] *)
Definition random_pick {A} (u : Q) (arr : list A) : Search A :=
  match arr !! random_index u (length arr) with
  | Some x => ret x
  | None => out_of_range
  end.

(** The values [Math.random()] can take. *)
Definition unit_draw (u : Q) : Prop := (0 <= u)%Q /\ (u < 1)%Q.

(** The loop of [bestMoveFor]: its variables are [bestScore] and
    [scoredMoves]. *)
Definition score_moves (player : player) : Search (number * list ScoredMove) :=
  for_each (seq 0 9)
    (fun i '(bestScore, scoredMoves) =>
       c <- read i ;;
       if truthy c then ret (bestScore, scoredMoves)
       else
         write i (Some player) ;;;
         score <- minimax (opponent player) player 0 ;;
         write i None ;;;
         let scoredMoves := scoredMoves ++ [{| idx := i; score := score |}] in
         ret (if number_gtb score bestScore then score else bestScore, scoredMoves))
    (NegInfinity, []).

(** [scoredMoves.filter(m => m.score === bestScore)] *)
Definition top_of (bestScore : number) (scoredMoves : list ScoredMove) : list ScoredMove :=
  List.filter (fun m => number_eqb (score m) bestScore) scoredMoves.

Definition bestMoveFor (u : Q) (player : player) : Search (option nat) :=
  vars <- score_moves player ;;
  let '(bestScore, scoredMoves) := vars in
  let top := top_of bestScore scoredMoves in
  if (length top =? 0)%nat then ret None
  else
    choice <- random_pick u top ;;
    ret (Some (idx choice)).

(** ** The difficulty tiers of the turn controller

    The controller works on [b = board.slice()]; the closures below read and
    write that array. *)

Fixpoint empties_from (i : nat) (b : Board) : list nat :=
  match b with
  | [] => []
  | v :: rest =>
      if truthy (Some v) then empties_from (S i) rest
      else i :: empties_from (S i) rest
  end.

(** [b.reduce((acc, v, i) => (v ? acc : (acc.push(i), acc)), [])] *)
Definition empties (b : Board) : list nat := empties_from 0 b.

Definition randomMove (u : Q) : Search (option nat) :=
  e <- gets empties ;;
  if (length e =? 0)%nat then ret None
  else
    i <- random_pick u e ;;
    ret (Some i).

(** [winner === pl] *)
Definition winner_is (w : WinResult) (pl : player) : bool :=
  strict_eqb (Some (winner w)) (Some (Some pl)).

(** The body of [for (const i of empties())] in [findWinningMove], with its
    early [return]. *)
Fixpoint findWinningMove_loop (pl : player) (es : list nat) : Search (option nat) :=
  match es with
  | [] => ret None
  | i :: rest =>
      write i (Some pl) ;;;
      w <- gets calculateWinner ;;
      write i None ;;;
      if winner_is w pl then ret (Some i)
      else findWinningMove_loop pl rest
  end.

Definition findWinningMove (pl : player) : Search (option nat) :=
  e <- gets empties ;;
  findWinningMove_loop pl e.

(** [v === null] *)
Definition is_null (v : option Mark) : bool := strict_eqb v (Some None).

Definition mediumMove (u : Q) (pl : player) : Search (option nat) :=
  winNow <- findWinningMove pl ;;
  match winNow with
  | Some i => ret (Some i)
  | None =>
      block <- findWinningMove (opponent pl) ;;
      match block with
      | Some i => ret (Some i)
      | None =>
          center <- read 4 ;;
          if is_null center then ret (Some 4%nat)
          else
            corners <- gets (fun b => List.filter (fun i => is_null (b !! i)) [0; 2; 6; 8]%nat) ;;
            if negb (length corners =? 0)%nat
            then
              c <- random_pick u corners ;;
              ret (Some c)
            else randomMove u
      end
  end.

Inductive difficulty := easy | medium | hard.

Definition pickByDifficulty (u : Q) (pl : player) (diff : difficulty) : Search (option nat) :=
  match diff with
  | easy => randomMove u
  | medium => mediumMove u pl
  | hard => bestMoveFor u pl
  end.

(** ** The turn controller

    One run of the timer callback of the effect that drives the turns in
    auto mode (both sides played by the engine, no betting overlay), on the
    part of the component state the engine reads and writes. *)

Record Game := { board : Board; xIsNext : bool }.

(** [!!winner || isBoardFull(board)] *)
Definition gameOver (b : Board) : bool :=
  truthy (Some (winner (calculateWinner b))) || isBoardFull b.

Record Settings := { betEnabled : bool; difficultyX : difficulty; difficultyO : difficulty }.

(** The callback works on [b = board.slice()], asks [pickByDifficulty] for a
    move for the side to move, and stores [b.slice()] with the move applied;
    [xIsNext] flips in every case.  [None]: the engine did not return. *)
Definition ai_turn (cfg : Settings) (u : Q) (g : Game) : option Game :=
  let current := if xIsNext g then X else O in
  let b := board g in
  let diff := if betEnabled cfg then easy
              else match current with X => difficultyX cfg | O => difficultyO cfg end in
  match pickByDifficulty u current diff b with
  | Returns (Some move) b' =>
      Some {| board := <[move := Some current]> b'; xIsNext := negb (xIsNext g) |}
  | Returns None _ =>
      Some {| board := board g; xIsNext := negb (xIsNext g) |}
  | _ => None
  end.

(** The effect re-runs after every state change until [gameOver]; [us k] is
    the draw of [Math.random()] in the [k]-th turn.  [None]: the game is not
    over after [turns] turns, or the engine did not return. *)
Fixpoint autoplay (turns : nat) (cfg : Settings) (us : nat -> Q) (k : nat) (g : Game) : option Game :=
  if gameOver (board g) then Some g
  else
    match turns with
    | 0%nat => None
    | S turns' =>
        match ai_turn cfg (us k) g with
        | Some g' => autoplay turns' cfg us (S k) g'
        | None => None
        end
    end.

(** [Array(9).fill(null)], X to move. *)
Definition new_game : Game := {| board := replicate 9 None; xIsNext := true |}.

Definition both_hard : Settings :=
  {| betEnabled := false; difficultyX := hard; difficultyO := hard |}.

(** * Vocabulary of the statements, and auxiliary functions

    Nothing below is part of the program: these are the predicates the
    theorems are stated with, and the functions used to prove them. *)

(** ** Lines and cells *)

(** The three cells of a line all hold the mark [m]. *)
Definition holds_line (board : Board) (m : player) (l : nat * nat * nat) : Prop :=
  let '(a, b, c) := l in
  board !! a = Some (Some m) /\ board !! b = Some (Some m) /\ board !! c = Some (Some m).

(** [l] is the first line of [ls] whose cells all hold one mark, and that
    mark is [m]. *)
Definition first_held_line (board : Board) (ls : list (nat * nat * nat))
    (m : player) (l : nat * nat * nat) : Prop :=
  exists pre post,
    ls = pre ++ l :: post
    /\ holds_line board m l
    /\ forall l' m', In l' pre -> ~ holds_line board m' l'.

(** Number of empty cells. *)
Fixpoint blanks (b : Board) : nat :=
  match b with
  | [] => 0
  | v :: rest => (if truthy (Some v) then 0 else 1) + blanks rest
  end.

(** ** Scores *)

Definition is_int (n : number) : Prop := exists z, n = Int z.

(** The score [bestMoveFor] gives to cell [i]: the value of [minimax] on the
    board with the player's mark placed there, the opponent to move, depth 0. *)
Definition move_score (b : Board) (p : player) (i : nat) (s : number) : Prop :=
  minimax (opponent p) p 0 (<[i := Some p]> b) = Returns s (<[i := Some p]> b).

(** The indices of [ixs] whose cell is empty, in order. *)
Definition blank_cells (b : Board) (ixs : list nat) : list nat :=
  List.filter (fun i => negb (truthy (b !! i))) ixs.

(** What the loop of [bestMoveFor] has computed once the indices [done] are
    behind it. *)
Definition scored (b : Board) (p : player) (done : list nat)
    (vars : number * list ScoredMove) : Prop :=
  let '(bestScore, scoredMoves) := vars in
  map idx scoredMoves = blank_cells b done
  /\ (forall m, In m scoredMoves ->
        is_int (score m) /\ move_score b p (idx m) (score m)
        /\ number_gtb (score m) bestScore = false)
  /\ (scoredMoves = [] -> bestScore = NegInfinity)
  /\ (scoredMoves <> [] -> exists m, In m scoredMoves /\ score m = bestScore).

(** ** Immediate wins, random choices, legal moves *)

(** The test [findWinningMove] makes on an empty cell. *)
Definition wins_test (b : Board) (pl : player) (i : nat) : bool :=
  winner_is (calculateWinner (<[i := Some pl]> b)) pl.

(** Cell [i] is an immediate winning move for [pl]: it is empty, and with
    [pl]'s mark on it [calculateWinner] reports [pl]. *)
Definition wins_at (b : Board) (pl : player) (i : nat) : Prop :=
  b !! i = Some None /\ winner (calculateWinner (<[i := Some pl]> b)) = Some pl.

(** The immediate winning cells of [pl], in increasing order. *)
Definition winning_cells (b : Board) (pl : player) : list nat :=
  List.filter (wins_test b pl) (empties b).

(** [[0,2,6,8].filter((i) => b[i] === null)] *)
Definition empty_corners (b : Board) : list nat :=
  List.filter (fun i => is_null (b !! i)) [0; 2; 6; 8]%nat.

(** [x] is the element that the draw [u] selects from [l] by
    [l[Math.floor(u * l.length)]].  By [random_index_interval] the draws that
    select position [k] are those of [[k/n, (k+1)/n)], an interval of length
    [1/n] for every position, and by [random_index_hits] every position is
    selected by some draw: a uniform [u] gives a uniform choice. *)
Definition uniform_choice {A} (u : Q) (l : list A) (x : A) : Prop :=
  l !! random_index u (length l) = Some x.

(** The computation returns, hands the array back as it was, and an index it
    returns is a cell of the 9-cell board that is empty. *)
Definition legal_result (b : Board) (o : outcome (option nat)) : Prop :=
  exists r, o = Returns r b
            /\ forall i, r = Some i -> (i < 9)%nat /\ b !! i = Some None.

(** ** The value minimax computes, as a function of the position

    [minimax] hands the array back unchanged (lemma [minimax_rec_value]), so
    its result is a function of the position.  [value] is that function;
    [value_step] is one level of the recursion, over the function [rec] used
    for the positions one move further.  In the same way [pure_scores] is the
    result of the loop of [bestMoveFor]. *)

(** One iteration of the loop of [minimax] on a cell holding [c]; [k] is the
    recursive call, made only if the cell is empty. *)
Definition consider (maximizing : bool) (c : option Mark) (best : number)
    (k : unit -> number) : number :=
  if truthy c then best
  else
    let score := k tt in
    if maximizing then Math_max best score else Math_min best score.

Definition value_step (rec : player -> player -> Z -> Board -> number)
    (current ai : player) (depth : Z) (b : Board) : number :=
  match winner (calculateWinner b) with
  | Some w => if player_eqb w ai then Int (10 - depth) else Int (depth - 10)
  | None =>
      if isBoardFull b then Int 0
      else
        fold_left
          (fun best i =>
             consider (player_eqb current ai) (b !! i) best
               (fun _ => rec (opponent current) ai (depth + 1) (<[i := Some current]> b)))
          (seq 0 9)
          (if player_eqb current ai then NegInfinity else Infinity)
  end.

Fixpoint value (fuel : nat) (current ai : player) (depth : Z) (b : Board) : number :=
  match fuel with
  | 0%nat => Int 0
  | S fuel' => value_step (value fuel') current ai depth b
  end.

(** One iteration of the loop of [bestMoveFor], over the function [val] that
    scores a position. *)
Definition score_cell (val : player -> player -> Z -> Board -> number)
    (p : player) (b : Board) (vars : number * list ScoredMove) (i : nat)
    : number * list ScoredMove :=
  if truthy (b !! i) then vars
  else
    let sc := val (opponent p) p 0 (<[i := Some p]> b) in
    (if number_gtb sc (fst vars) then sc else fst vars,
     snd vars ++ [{| idx := i; score := sc |}]).

Definition pure_scores (val : player -> player -> Z -> Board -> number)
    (p : player) (b : Board) : number * list ScoredMove :=
  fold_left (score_cell val p b) (seq 0 9) (NegInfinity, []).

(** The cells [bestMoveFor] chooses among. *)
Definition top_cells (val : player -> player -> Z -> Board -> number)
    (p : player) (b : Board) : list nat :=
  map idx (top_of (fst (pure_scores val p b)) (snd (pure_scores val p b))).

(** ** A position evaluator specialised to nine cells

    [fast_step] is [value_step] on the array [[c0; ...; c8]] with the array
    operations evaluated away (lemma [fast_step_eq]); [fast_val] agrees with
    [value] on every 9-cell board (lemma [fast_value_correct]) and is used to
    evaluate the engine on whole families of boards. *)

Inductive cells := Cells (c0 c1 c2 c3 c4 c5 c6 c7 c8 : Mark).

Definition pack (b : Board) : cells :=
  match b with
  | [c0; c1; c2; c3; c4; c5; c6; c7; c8] => Cells c0 c1 c2 c3 c4 c5 c6 c7 c8
  | _ => Cells None None None None None None None None None
  end.

Definition fast_step (rec : player -> player -> Z -> cells -> number)
    (current ai : player) (depth : Z) (t : cells) : number :=
  Eval cbv beta iota zeta
       delta -[consider Math_max Math_min Z.add Z.sub player_eqb opponent] in
  match t with
  | Cells c0 c1 c2 c3 c4 c5 c6 c7 c8 =>
      value_step (fun cur a d b => rec cur a d (pack b)) current ai depth
        [c0; c1; c2; c3; c4; c5; c6; c7; c8]
  end.

Fixpoint fast_value (fuel : nat) (current ai : player) (depth : Z) (t : cells) : number :=
  match fuel with
  | 0%nat => Int 0
  | S fuel' => fast_step (fast_value fuel') current ai depth t
  end.

Definition fast_val (current ai : player) (depth : Z) (b : Board) : number :=
  fast_value search_fuel current ai depth (pack b).

(** ** Checks over families of boards *)

(** All arrays of [n] marks. *)
Fixpoint boards (n : nat) : list Board :=
  match n with
  | 0%nat => [[]]
  | S n' => flat_map (fun rest => [None :: rest; Some X :: rest; Some O :: rest]) (boards n')
  end.

(** [w] is the only cell [bestMoveFor] chooses among. *)
Definition sole_top_cell (val : player -> player -> Z -> Board -> number)
    (p : player) (b : Board) (w : nat) : bool :=
  match top_cells val p b with
  | [i] => Nat.eqb i w
  | _ => false
  end.

(** If [p] has exactly one immediate winning cell, it is the only top cell. *)
Definition takes_sole_win (val : player -> player -> Z -> Board -> number)
    (b : Board) (p : player) : bool :=
  match winning_cells b p with
  | [w] => sole_top_cell val p b w
  | _ => true
  end.

(** If [p] has no immediate winning cell and the opponent exactly one, that
    one is the only top cell. *)
Definition blocks_sole_threat (val : player -> player -> Z -> Board -> number)
    (b : Board) (p : player) : bool :=
  match winning_cells b p, winning_cells b (opponent p) with
  | [], [c] => sole_top_cell val p b c
  | _, _ => true
  end.

(** Every play-out from [b] in which the side to move plays one of its top
    cells ends, within [turns] turns, on a full board without a winner. *)
Fixpoint always_draw (val : player -> player -> Z -> Board -> number)
    (turns : nat) (b : Board) (xnext : bool) : bool :=
  if gameOver b
  then negb (truthy (Some (winner (calculateWinner b)))) && isBoardFull b
  else
    match turns with
    | 0%nat => false
    | S turns' =>
        let current := if xnext then X else O in
        match top_cells val current b with
        | [] => false
        | top =>
            forallb (fun i => always_draw val turns' (<[i := Some current]> b) (negb xnext)) top
        end
    end.

(** * More of the component

    The handlers and effects of [App] around the engine: the click handler,
    the effect that drives the AI turns with all its guards, the hint button,
    and the bankroll of the betting mini-game. *)

(** ** Clicks, AI turns, hints *)

(** [handleClick(i)].  A click past the end of the board is not followed
    ([None]), as for [write]. *)
Definition handleClick (showBet : bool) (i : nat) (g : Game) : option Game :=
  if truthy (board g !! i) || gameOver (board g) || negb (xIsNext g) || showBet
  then Some g
  else if (i <? length (board g))%nat
       then Some {| board := <[i := Some X]> (board g); xIsNext := false |}
       else None.

(** The [disabled] attribute of the board buttons,
    [!!value || gameOver || aiThinking || auto || showBet], without
    [aiThinking], which only disables more. *)
Definition cell_disabled (auto showBet : bool) (i : nat) (g : Game) : bool :=
  truthy (board g !! i) || gameOver (board g) || auto || showBet.

(** The effect that drives the turns, with its guards: nothing happens when
    the game is over, when it is the human's turn (X, outside auto mode), or
    while the betting overlay is shown. *)
Definition ai_effect (auto showBet : bool) (cfg : Settings) (u : Q) (g : Game) : option Game :=
  if gameOver (board g) then Some g
  else
    let current := if xIsNext g then X else O in
    let shouldAIMove := auto || (negb auto && player_eqb current O) in
    if negb shouldAIMove || showBet then Some g
    else ai_turn cfg u g.

(** [onSuggest()]: the new value of [suggestion]; [None]: the engine did not
    return. *)
Definition onSuggest (auto : bool) (u : Q) (g : Game) (suggestion : option nat)
    : option (option nat) :=
  if gameOver (board g) || negb (xIsNext g) || auto then Some suggestion
  else
    match bestMoveFor u X (board g) with
    | Returns r _ => Some r
    | _ => None
    end.

(** [Math.random() < 0.5] *)
Definition below_half (u : Q) : bool := negb (Qle_bool (1 # 2) u).

(** The board and turn that [onReset(randomizeStarter)] sets. *)
Definition onReset_game (randomizeStarter : bool) (u : Q) : Game :=
  {| board := replicate 9 None;
     xIsNext := if randomizeStarter then below_half u else true |}.

(** What can happen to a game: a click on cell [i], or a run of the timer
    callback with draw [u]; with each, the mode, overlay and settings in
    force at that moment. *)
Inductive event := Click (i : nat) | Tick (u : Q).

Record Input := { in_auto : bool; in_showBet : bool; in_cfg : Settings; in_event : event }.

Definition react (inp : Input) (g : Game) : option Game :=
  match in_event inp with
  | Click i =>
      if cell_disabled (in_auto inp) (in_showBet inp) i g then Some g
      else handleClick (in_showBet inp) i g
  | Tick u => ai_effect (in_auto inp) (in_showBet inp) (in_cfg inp) u g
  end.

Fixpoint run (inps : list Input) (g : Game) : option Game :=
  match inps with
  | [] => Some g
  | inp :: rest =>
      match react inp g with
      | Some g' => run rest g'
      | None => None
      end
  end.

(** A click comes from one of the nine buttons that [board.map] renders; a
    draw is a value of [Math.random()]. *)
Definition input_ok (inp : Input) : Prop :=
  match in_event inp with
  | Click i => (i < 9)%nat
  | Tick u => unit_draw u
  end.

(** The side to move. *)
Definition mover (g : Game) : player := if xIsNext g then X else O.

(** The game after the side to move has marked cell [i]. *)
Definition after_move (i : nat) (g : Game) : Game :=
  {| board := <[i := Some (mover g)]> (board g); xIsNext := negb (xIsNext g) |}.

(** At this input the side [p] is played by the engine at hard difficulty:
    betting is off (it forces easy), [p]'s difficulty is hard, and for X the
    game is in auto mode (otherwise X is the human). *)
Definition plays_hard (p : player) (inp : Input) : Prop :=
  betEnabled (in_cfg inp) = false
  /\ match p with
     | X => in_auto inp = true /\ difficultyX (in_cfg inp) = hard
     | O => difficultyO (in_cfg inp) = hard
     end.

(** ** Auxiliary functions for the engine *)

(** [-n] *)
Definition number_opp (n : number) : number :=
  match n with
  | NegInfinity => Infinity
  | Int z => Int (- z)
  | Infinity => NegInfinity
  end.

(** Whatever the other side plays, and whichever top cell [p] plays, the
    other side is never reported as winner, within [turns] turns from [b]. *)
Fixpoint never_loses (val : player -> player -> Z -> Board -> number)
    (p : player) (turns : nat) (b : Board) (xnext : bool) : bool :=
  if winner_is (calculateWinner b) (opponent p) then false
  else if gameOver b then true
  else
    match turns with
    | 0%nat => false
    | S turns' =>
        let current := if xnext then X else O in
        if player_eqb current p
        then
          match top_cells val p b with
          | [] => false
          | top =>
              forallb (fun i => never_loses val p turns' (<[i := Some p]> b) (negb xnext)) top
          end
        else
          forallb (fun i => never_loses val p turns' (<[i := Some current]> b) (negb xnext))
            (empties b)
    end.

(** [p] cannot lose from [g]. *)
Definition safe_for (p : player) (g : Game) : Prop :=
  length (board g) = 9%nat
  /\ exists turns, never_loses fast_val p turns (board g) (xIsNext g) = true.

(** ** The bankroll *)

Record Bets := {
  bank : Z;
  wager : Z;
  multiplier : Z;
  allIn : bool;
  currentStake : Z;
  streak : Z;
  betChoice : option player;
  showBet : bool
}.

(** The initial values of the state variables. *)
Definition initial_bets : Bets :=
  {| bank := 1000; wager := 0; multiplier := 1; allIn := false;
     currentStake := 0; streak := 0; betChoice := None; showBet := false |}.

(** [allIn ? bank : Math.min(bank, wager * multiplier)] *)
Definition stake_of (w : Bets) : Z :=
  if allIn w then bank w else Z.min (bank w) (wager w * multiplier w).

(** The [onClick] of the two "Bet on" buttons. *)
Definition placeBet (choice : player) (w : Bets) : Bets :=
  let stake := stake_of w in
  {| bank := Z.max 0 (bank w - stake);
     wager := wager w; multiplier := multiplier w; allIn := allIn w;
     currentStake := stake; streak := streak w;
     betChoice := Some choice; showBet := false |}.

(** The bankroll part of the effect that runs when the game is over. *)
Definition settleBet (enabled : bool) (won : Mark) (w : Bets) : Bets :=
  if enabled && truthy (Some (betChoice w)) && (0 <? currentStake w)
  then
    match won with
    | None =>
        {| bank := bank w + currentStake w;
           wager := wager w; multiplier := multiplier w; allIn := allIn w;
           currentStake := currentStake w; streak := streak w;
           betChoice := betChoice w; showBet := showBet w |}
    | Some p =>
        if strict_eqb (Some (betChoice w)) (Some (Some p))
        then
          let bonus := Z.max 0 (streak w) * 5 in
          {| bank := bank w + currentStake w * 2 + bonus;
             wager := wager w; multiplier := multiplier w; allIn := allIn w;
             currentStake := currentStake w; streak := streak w + 1;
             betChoice := betChoice w; showBet := showBet w |}
        else
          {| bank := bank w;
             wager := wager w; multiplier := multiplier w; allIn := allIn w;
             currentStake := currentStake w; streak := 0;
             betChoice := betChoice w; showBet := showBet w |}
    end
  else w.

(** The bankroll part of [onReset(randomizeStarter, skipBet)]. *)
Definition onReset_bets (enabled skipBet : bool) (w : Bets) : Bets :=
  {| bank := bank w; wager := 0; multiplier := 1; allIn := false;
     currentStake := 0; streak := streak w; betChoice := None;
     showBet := if skipBet then false else enabled && (0 <? bank w) |}.

(** The timeout of the betting countdown: it is pending only while the
    overlay is shown. *)
Definition autoSelect (u : Q) (w : Bets) : Bets :=
  if showBet w
  then
    match betChoice w with
    | None =>
        {| bank := bank w; wager := wager w; multiplier := multiplier w; allIn := allIn w;
           currentStake := currentStake w; streak := streak w;
           betChoice := Some (if below_half u then X else O); showBet := false |}
    | Some _ => w
    end
  else w.

(** The wager chips: [setWager(amt); setAllIn(false)]. *)
Definition chooseWager (amt : Z) (w : Bets) : Bets :=
  {| bank := bank w; wager := amt; multiplier := multiplier w; allIn := false;
     currentStake := currentStake w; streak := streak w;
     betChoice := betChoice w; showBet := showBet w |}.

(** The all-in chip: [setAllIn((v) => !v)]. *)
Definition toggleAllIn (w : Bets) : Bets :=
  {| bank := bank w; wager := wager w; multiplier := multiplier w; allIn := negb (allIn w);
     currentStake := currentStake w; streak := streak w;
     betChoice := betChoice w; showBet := showBet w |}.

(** The multiplier buttons: [setMultiplier(m)]. *)
Definition chooseMultiplier (m : Z) (w : Bets) : Bets :=
  {| bank := bank w; wager := wager w; multiplier := m; allIn := allIn w;
     currentStake := currentStake w; streak := streak w;
     betChoice := betChoice w; showBet := showBet w |}.

(** The betting switch, as far as the bankroll state goes:
    [if (!on) setShowBet(false)]. *)
Definition onCheckedChange (on : bool) (w : Bets) : Bets :=
  if on then w
  else
    {| bank := bank w; wager := wager w; multiplier := multiplier w; allIn := allIn w;
       currentStake := currentStake w; streak := streak w;
       betChoice := betChoice w; showBet := false |}.

(** "Profit on win" as the header shows it once a bet is placed:
    [currentStake + Math.max(0, streak) * 5]. *)
Definition shown_profit (w : Bets) : Z := currentStake w + Z.max 0 (streak w) * 5.

(** "Profit on win" as the overlay previews it before the bet is placed. *)
Definition preview_profit (w : Bets) : Z :=
  let preview := stake_of w in
  let bonus := if 0 <? preview then Z.max 0 (streak w) * 5 else 0 in
  if 0 <? preview then preview + bonus else 0.

(** What the interface lets happen to the bankroll.  The bet buttons and the
    chips exist only inside the overlay; the bet buttons are disabled when
    [bank <= 0], the multiplier buttons when [allIn]. *)
Inductive bet_action :=
  | Place (choice : player)
  | Settle (enabled : bool) (won : Mark)
  | Reset (enabled skipBet : bool)
  | AutoSelect (u : Q)
  | Chip (amt : Z)
  | AllIn
  | Mult (m : Z)
  | Switch (on : bool).

Definition bet_step (a : bet_action) (w : Bets) : Bets :=
  match a with
  | Place choice => if showBet w && (0 <? bank w) then placeBet choice w else w
  | Settle enabled won => settleBet enabled won w
  | Reset enabled skipBet => onReset_bets enabled skipBet w
  | AutoSelect u => autoSelect u w
  | Chip amt => if showBet w then chooseWager amt w else w
  | AllIn => if showBet w then toggleAllIn w else w
  | Mult m => if showBet w && negb (allIn w) then chooseMultiplier m w else w
  | Switch on => onCheckedChange on w
  end.

(** The chips are 0, 10, 50, 100 and the multipliers 1, 2, 3. *)
Definition action_ok (a : bet_action) : Prop :=
  match a with
  | Chip amt => In amt [0; 10; 50; 100]
  | Mult m => In m [1; 2; 3]
  | _ => True
  end.

Definition run_bets (acts : list bet_action) (w : Bets) : Bets :=
  fold_left (fun w a => bet_step a w) acts w.

(** What every reachable bankroll state satisfies. *)
Definition bets_ok (w : Bets) : Prop :=
  0 <= bank w /\ 0 <= streak w /\ 0 <= currentStake w
  /\ 0 <= wager w /\ 1 <= multiplier w
  /\ (showBet w = true -> 0 < bank w /\ betChoice w = None /\ currentStake w = 0).

(** * Properties *)

(** ** The random index *)

(** Discharges [unit_draw u] for a literal [u]. *)
Ltac literal_draw := split; [unfold Qle | unfold Qlt]; simpl; lia.

Lemma random_index_lt (u : Q) (n : nat) :
  unit_draw u -> (0 < n)%nat -> (random_index u n < n)%nat.
Proof.
  intros [Hge Hlt] Hn. unfold random_index.
  set (x := (u * inject_Z (Z.of_nat n))%Q).
  assert (Hn0 : (0 < inject_Z (Z.of_nat n))%Q).
  { change (inject_Z 0 < inject_Z (Z.of_nat n))%Q. rewrite <- Zlt_Qlt. lia. }
  assert (Hx0 : (0 <= x)%Q).
  { unfold x. apply Qmult_le_0_compat; [exact Hge | apply Qlt_le_weak, Hn0]. }
  assert (Hxn : (x < inject_Z (Z.of_nat n))%Q).
  { unfold x. rewrite <- (Qmult_1_l (inject_Z (Z.of_nat n))) at 2.
    apply Qmult_lt_compat_r; assumption. }
  assert (H0 : 0 <= Qfloor x).
  { change 0 with (Qfloor (inject_Z 0)). apply Qfloor_resp_le. exact Hx0. }
  assert (H1 : Qfloor x < Z.of_nat n).
  { rewrite Zlt_Qlt. eapply Qle_lt_trans; [apply Qfloor_le | exact Hxn]. }
  lia.
Qed.

(** The draws that select index [k] of an [n]-element array form the
    interval [[k/n, (k+1)/n)]: every index has a preimage of the same
    length. *)
Lemma random_index_interval (u : Q) (n k : nat) :
  (0 < n)%nat -> (0 <= u)%Q ->
  random_index u n = k <->
  (inject_Z (Z.of_nat k) <= u * inject_Z (Z.of_nat n)
   /\ u * inject_Z (Z.of_nat n) < inject_Z (Z.of_nat k + 1))%Q.
Proof.
  intros Hn Hge. unfold random_index.
  set (x := (u * inject_Z (Z.of_nat n))%Q).
  assert (Hx0 : 0 <= Qfloor x).
  { change 0 with (Qfloor (inject_Z 0)). apply Qfloor_resp_le.
    unfold x. apply Qmult_le_0_compat; [exact Hge |].
    change (inject_Z 0 <= inject_Z (Z.of_nat n))%Q. rewrite <- Zle_Qle. lia. }
  split.
  - intros <-. rewrite Z2Nat.id by exact Hx0.
    split; [apply Qfloor_le | apply Qlt_floor].
  - intros [Hlo Hhi].
    assert (Z.of_nat k <= Qfloor x).
    { rewrite <- (Qfloor_Z (Z.of_nat k)). apply Qfloor_resp_le, Hlo. }
    assert (Qfloor x < Z.of_nat k + 1).
    { rewrite Zlt_Qlt. eapply Qle_lt_trans; [apply Qfloor_le | exact Hhi]. }
    lia.
Qed.

(** Every index is selected by some draw. *)
Lemma random_index_hits (n k : nat) :
  (k < n)%nat -> exists u, unit_draw u /\ random_index u n = k.
Proof.
  intros Hk. exists (Z.of_nat k # Pos.of_nat n).
  assert (Hn : Z.pos (Pos.of_nat n) = Z.of_nat n).
  { destruct n as [| n']; [lia |].
    rewrite <- Pos.of_nat_succ, Zpos_P_of_succ_nat. lia. }
  split.
  - split; [unfold Qle | unfold Qlt]; cbn [Qnum Qden]; lia.
  - unfold random_index, Qmult, inject_Z, Qfloor. cbn [Qnum Qden].
    rewrite Pos.mul_1_r, Hn, Z.div_mul by lia. apply Nat2Z.id.
Qed.

Lemma random_pick_returns {A} (u : Q) (arr : list A) :
  unit_draw u -> (0 < length arr)%nat ->
  exists x, arr !! random_index u (length arr) = Some x /\ In x arr
            /\ forall b, random_pick u arr b = Returns x b.
Proof.
  intros Hu Hlen.
  destruct (lookup_lt_is_Some_2 arr (random_index u (length arr))) as [x Hx].
  { apply random_index_lt; assumption. }
  exists x. split; [exact Hx |]. split.
  - apply list_elem_of_In. eapply list_elem_of_lookup_2. exact Hx.
  - intros b. unfold random_pick. rewrite Hx. reflexivity.
Qed.

(** ** calculateWinner *)

Lemma line_complete_spec (board : Board) (l : nat * nat * nat) :
  line_complete board l = true <-> exists m, holds_line board m l.
Proof.
  destruct l as [[a b] c]. unfold line_complete, holds_line.
  destruct (board !! a) as [[[]|]|], (board !! b) as [[[]|]|],
    (board !! c) as [[[]|]|]; simpl; split;
    first [ discriminate | reflexivity | (intros _; eexists; repeat split)
          | (intros (m & H1 & H2 & H3); congruence) ].
Qed.

Lemma line_complete_false (board : Board) (l : nat * nat * nat) :
  line_complete board l = false <-> forall m, ~ holds_line board m l.
Proof.
  rewrite <- not_true_iff_false, line_complete_spec. split.
  - intros H m Hm. apply H. exists m. exact Hm.
  - intros H (m & Hm). exact (H m Hm).
Qed.

Lemma holds_line_functional (board : Board) (m m' : player) (l : nat * nat * nat) :
  holds_line board m l -> holds_line board m' l -> m = m'.
Proof.
  destruct l as [[a b] c]. intros (H & _) (H' & _). congruence.
Qed.

Lemma scan_lines_found (board : Board) (ls : list (nat * nat * nat)) (m : player) (a b c : nat) :
  scan_lines board ls = {| winner := Some m; line := Some [a; b; c] |}
  <-> first_held_line board ls m (a, b, c).
Proof.
  induction ls as [| [[a' b'] c'] rest IH].
  - simpl. split; [discriminate |].
    intros (pre & post & Heq & _). destruct pre; discriminate.
  - cbn [scan_lines].
    destruct (line_complete board (a', b', c')) eqn:Hc.
    + apply line_complete_spec in Hc as (m0 & Hm0).
      pose proof Hm0 as (Ha & _). rewrite Ha. simpl. split.
      * intros [= -> -> -> ->]. exists [], rest. repeat split; try apply Hm0.
        intros ? ? [].
      * intros (pre & post & Heq & Hm & Hpre). destruct pre as [| l0 pre].
        -- simpl in Heq. simplify_eq.
           rewrite (holds_line_functional _ _ _ _ Hm Hm0). reflexivity.
        -- simpl in Heq. simplify_eq. exfalso.
           apply (Hpre _ m0 (or_introl eq_refl)), Hm0.
    + rewrite line_complete_false in Hc. rewrite IH. split.
      * intros (pre & post & -> & Hm & Hpre).
        exists ((a', b', c') :: pre), post. repeat split; try apply Hm.
        intros l' m' [<- | Hin]; [apply Hc | apply Hpre, Hin].
      * intros (pre & post & Heq & Hm & Hpre). destruct pre as [| l0 pre].
        -- simpl in Heq. simplify_eq. exfalso. exact (Hc m Hm).
        -- simpl in Heq. simplify_eq. exists pre, post. repeat split; try apply Hm.
           intros l' m' Hin. apply Hpre. right. exact Hin.
Qed.

Lemma scan_lines_none (board : Board) (ls : list (nat * nat * nat)) :
  (forall l m, In l ls -> ~ holds_line board m l) <->
  scan_lines board ls = {| winner := None; line := None |}.
Proof.
  induction ls as [| [[a b] c] rest IH]; cbn [scan_lines In].
  - split; [reflexivity | intros _ ? ? []].
  - destruct (line_complete board (a, b, c)) eqn:Hc.
    + apply line_complete_spec in Hc as (m0 & Hm0).
      pose proof Hm0 as (Ha & _). rewrite Ha. split.
      * intros H. exfalso. exact (H _ m0 (or_introl eq_refl) Hm0).
      * discriminate.
    + rewrite line_complete_false in Hc. rewrite <- IH. split.
      * intros H l m Hin. apply H. right. exact Hin.
      * intros H l m [<- | Hin]; [apply Hc | apply H, Hin].
Qed.

(** The winner reported is the mark on a complete line, or nothing. *)
Lemma scan_lines_winner (board : Board) (ls : list (nat * nat * nat)) (m : player) :
  winner (scan_lines board ls) = Some m <->
  exists l, first_held_line board ls m l.
Proof.
  split.
  - induction ls as [| [[a b] c] rest IH]; cbn [scan_lines]; [discriminate |].
    destruct (line_complete board (a, b, c)) eqn:Hc.
    + intros Hw. exists (a, b, c). apply scan_lines_found. cbn [scan_lines].
      rewrite Hc. simpl in Hw. rewrite Hw. reflexivity.
    + intros Hw. destruct (IH Hw) as ([[a' b'] c'] & Hl). exists (a', b', c').
      apply scan_lines_found. cbn [scan_lines]. rewrite Hc.
      apply scan_lines_found, Hl.
  - intros ([[a b] c] & Hl). apply scan_lines_found in Hl. rewrite Hl. reflexivity.
Qed.

(** C2. For every board, [calculateWinner] returns winner [m] with line
    [[a,b,c]] exactly when [(a,b,c)] is the first triple of [WIN_LINES]
    (rows, then columns, then diagonals) whose three cells all hold the same
    mark [m]; when no triple is held by one mark, as on the all-empty board,
    it returns no winner and no line; on [[_,X,_,_,X,_,_,X,_]] it reports X
    with line [[1,4,7]]. *)
Theorem calculateWinner_first_line :
  WIN_LINES = [ (0, 1, 2); (3, 4, 5); (6, 7, 8);
                (0, 3, 6); (1, 4, 7); (2, 5, 8);
                (0, 4, 8); (2, 4, 6) ]%nat
  /\ (forall (board : Board) (m : player) (a b c : nat),
      calculateWinner board = {| winner := Some m; line := Some [a; b; c] |}
      <-> first_held_line board WIN_LINES m (a, b, c))
  /\ (forall board : Board,
         (forall l m, In l WIN_LINES -> ~ holds_line board m l)
         <-> calculateWinner board = {| winner := None; line := None |})
  /\ calculateWinner (replicate 9 None) = {| winner := None; line := None |}
  /\ calculateWinner [None; Some X; None; None; Some X; None; None; Some X; None]
     = {| winner := Some X; line := Some [1; 4; 7]%nat |}.
Proof.
  split; [reflexivity |]. split; [| split; [| split]].
  - intros. apply scan_lines_found.
  - intros. apply scan_lines_none.
  - reflexivity.
  - reflexivity.
Qed.

(** Two rows are complete at once; the first in order, X's, is reported. *)
Lemma calculateWinner_first_line_witness :
  first_held_line [Some X; Some X; Some X; Some O; Some O; Some O; None; None; None]
    WIN_LINES X (0, 1, 2)%nat.
Proof.
  apply (proj1 (proj2 calculateWinner_first_line)
           [Some X; Some X; Some X; Some O; Some O; Some O; None; None; None] X 0 1 2)%nat.
  reflexivity.
Defined.

(** ** Cells of a board *)

Lemma falsy_cell_is_null (b : Board) (i : nat) :
  (i < length b)%nat -> truthy (b !! i) = false -> b !! i = Some None.
Proof.
  intros Hi Ht. destruct (b !! i) as [[q |] |] eqn:Hv.
  - discriminate.
  - reflexivity.
  - apply lookup_ge_None in Hv. lia.
Qed.

Lemma null_cell_in_range (b : Board) (i : nat) (v : Mark) :
  b !! i = Some v -> (i < length b)%nat.
Proof. apply lookup_lt_Some. Qed.

Lemma write_in_range (b : Board) (i : nat) (v : Mark) :
  (i < length b)%nat -> write i v b = Returns tt (<[i := v]> b).
Proof.
  intros Hi. unfold write. apply Nat.ltb_lt in Hi. rewrite Hi. reflexivity.
Qed.

(** Writing a mark on an empty cell, running a computation that hands the
    array back, and clearing the cell. *)
Lemma place_run_clear {A B} (b : Board) (i : nat) (p : player)
    (m : Search A) (x : A) (k : A -> Search B) :
  b !! i = Some None ->
  m (<[i := Some p]> b) = Returns x (<[i := Some p]> b) ->
  (write i (Some p) ;;; y <- m ;; write i None ;;; k y) b = k x b.
Proof.
  intros Hi Hm. pose proof (lookup_lt_Some _ _ _ Hi) as Hlt.
  unfold bind at 1. rewrite write_in_range by exact Hlt.
  unfold bind at 1. rewrite Hm.
  unfold bind at 1. rewrite write_in_range by (rewrite length_insert; exact Hlt).
  rewrite list_insert_insert_eq, list_insert_id by exact Hi. reflexivity.
Qed.

Lemma blanks_le_length (b : Board) : (blanks b <= length b)%nat.
Proof. induction b as [| [p|] rest IH]; simpl; lia. Qed.

Lemma blanks_place (b : Board) (i : nat) (p : player) :
  b !! i = Some None -> S (blanks (<[i := Some p]> b)) = blanks b.
Proof.
  revert i. induction b as [| v rest IH]; intros [| i] Hi; try discriminate.
  - injection Hi as ->. reflexivity.
  - cbn [blanks]. change (<[S i := Some p]> (v :: rest)) with (v :: <[i := Some p]> rest).
    cbn [blanks]. rewrite <- (IH i Hi). lia.
Qed.

Lemma isBoardFull_true (b : Board) :
  isBoardFull b = true <-> forall i, (i < length b)%nat -> truthy (b !! i) = true.
Proof.
  induction b as [| v rest IH]; simpl.
  - split; [intros _ i Hi; lia | reflexivity].
  - rewrite andb_true_iff, IH. split.
    + intros [Hv Hrest] [| i] Hi; [exact Hv | apply Hrest; lia].
    + intros H. split; [apply (H 0%nat); lia |].
      intros i Hi. apply (H (S i)). lia.
Qed.

Lemma isBoardFull_false (b : Board) :
  isBoardFull b = false -> exists i, b !! i = Some None.
Proof.
  induction b as [| v rest IH]; simpl; [discriminate |].
  destruct v as [p |]; simpl.
  - intros H. destruct (IH H) as [i Hi]. exists (S i). exact Hi.
  - intros _. exists 0%nat. reflexivity.
Qed.

(** ** Loops that try every empty cell

    [minimax] and [bestMoveFor] share one loop shape: for each index, skip a
    taken cell; on an empty one place the mark, run a computation, clear the
    cell, update the loop variables.  If the computation hands the array back
    as it got it, so does the loop, and an invariant on the indices done so
    far carries through. *)

Section TryCells.
Context {St A : Type}.
Variable b : Board.
Variable p : player.
Variable m : Search A.
Variable f : nat -> St -> A -> St.
Variable body : nat -> St -> Search St.
Variable Inv : list nat -> St -> Prop.

Hypothesis body_eq : forall i s,
  body i s =
  (c <- read i ;;
   if truthy c then ret s
   else write i (Some p) ;;; x <- m ;; write i None ;;; ret (f i s x)).
Hypothesis b_cells : length b = 9%nat.
Hypothesis Inv_skip : forall done i s,
  Inv done s -> truthy (b !! i) = true -> Inv (done ++ [i]) s.
Hypothesis Inv_try : forall done i s,
  Inv done s -> b !! i = Some None ->
  exists x, m (<[i := Some p]> b) = Returns x (<[i := Some p]> b)
            /\ Inv (done ++ [i]) (f i s x).

Lemma for_each_try_cells (ixs done : list nat) (s : St) :
  (forall i, In i ixs -> (i < 9)%nat) ->
  Inv done s ->
  exists s', for_each ixs body s b = Returns s' b /\ Inv (done ++ ixs) s'.
Proof using body_eq b_cells Inv_skip Inv_try.
  revert done s. induction ixs as [| i rest IH]; intros done s Hix Hinv.
  - exists s. rewrite app_nil_r. split; [reflexivity | exact Hinv].
  - assert (Hi : (i < length b)%nat) by (rewrite b_cells; apply Hix; left; reflexivity).
    assert (Hrest : forall j, In j rest -> (j < 9)%nat) by (intros j Hj; apply Hix; right; exact Hj).
    cbn [for_each]. unfold bind at 1. rewrite body_eq. unfold bind at 1, read.
    destruct (truthy (b !! i)) eqn:Ht.
    + destruct (IH (done ++ [i]) s Hrest (Inv_skip _ _ _ Hinv Ht)) as (s' & Hs' & Hinv').
      exists s'. rewrite <- app_assoc in Hinv'. split; assumption.
    + apply falsy_cell_is_null in Ht; [| exact Hi].
      destruct (Inv_try _ _ _ Hinv Ht) as (x & Hx & Hinv1).
      rewrite (place_run_clear b i p m x _ Ht Hx). unfold ret.
      destruct (IH (done ++ [i]) (f i s x) Hrest Hinv1) as (s' & Hs' & Hinv').
      exists s'. rewrite <- app_assoc in Hinv'. split; assumption.
Qed.
End TryCells.

(** ** minimax returns, and hands the board back *)

Lemma minimax_rec_unfold (fuel : nat) (current ai : player) (depth : Z) (b : Board) :
  minimax_rec (S fuel) current ai depth b =
  match winner (calculateWinner b) with
  | Some w => Returns (if player_eqb w ai then Int (10 - depth) else Int (depth - 10)) b
  | None =>
      if isBoardFull b then Returns (Int 0) b
      else
        for_each (seq 0 9)
          (fun i best =>
             c <- read i ;;
             if truthy c then ret best
             else
               write i (Some current) ;;;
               score <- minimax_rec fuel (opponent current) ai (depth + 1) ;;
               write i None ;;;
               ret (if player_eqb current ai then Math_max best score else Math_min best score))
          (if player_eqb current ai then NegInfinity else Infinity) b
  end.
Proof.
  cbn [minimax_rec]. unfold bind, gets.
  destruct (winner (calculateWinner b)); [reflexivity |].
  destruct (isBoardFull b); reflexivity.
Qed.

Lemma minimax_rec_returns (fuel : nat) (b : Board) (current ai : player) (depth : Z) :
  length b = 9%nat -> (blanks b < fuel)%nat ->
  exists z, minimax_rec fuel current ai depth b = Returns (Int z) b.
Proof.
  revert b current ai depth.
  induction fuel as [| fuel IH]; intros b current ai depth Hlen Hfuel; [lia |].
  rewrite minimax_rec_unfold.
  destruct (winner (calculateWinner b)) as [w |].
  { destruct (player_eqb w ai); eexists; reflexivity. }
  destruct (isBoardFull b) eqn:Hfull.
  { eexists; reflexivity. }
  set (start := if player_eqb current ai then NegInfinity else Infinity).
  set (step := fun (_ : nat) (best score : number) =>
                 if player_eqb current ai then Math_max best score else Math_min best score).
  pose (Inv := fun (done : list nat) (best : number) =>
                 (best = start \/ is_int best)
                 /\ ((exists i, In i done /\ b !! i = Some None) -> is_int best)).
  destruct (for_each_try_cells b current
              (minimax_rec fuel (opponent current) ai (depth + 1)) step _ Inv
              (fun _ _ => eq_refl) Hlen) with (ixs := seq 0 9) (done := @nil nat) (s := start)
    as (best & Hbest & _ & Hint).
  - intros done i s [Hs Hdone] Ht. split; [exact Hs |].
    intros (j & Hj & Hnull). apply Hdone. exists j. split; [| exact Hnull].
    apply in_app_or in Hj as [Hj | [<- | []]]; [exact Hj |].
    rewrite Hnull in Ht. discriminate.
  - intros done i s [Hs _] Hnull.
    destruct (IH (<[i := Some current]> b) (opponent current) ai (depth + 1)) as [z Hz].
    { rewrite length_insert. exact Hlen. }
    { pose proof (blanks_place b i current Hnull). lia. }
    exists (Int z). split; [exact Hz |].
    assert (Hstep : is_int (step i s (Int z))).
    { unfold step, start in *. destruct (player_eqb current ai), Hs as [-> | [z' ->]];
        simpl; eexists; reflexivity. }
    split; [right; exact Hstep | intros _; exact Hstep].
  - intros i Hi. apply in_seq in Hi. lia.
  - split; [left; reflexivity | intros (i & [] & _)].
  - destruct Hint as [z ->].
    + destruct (isBoardFull_false b Hfull) as [i Hi]. exists i. split; [| exact Hi].
      apply in_seq. apply null_cell_in_range in Hi. lia.
    + exists z. exact Hbest.
Qed.

Lemma minimax_returns (b : Board) (current ai : player) (depth : Z) :
  length b = 9%nat ->
  exists z, minimax current ai depth b = Returns (Int z) b.
Proof.
  intros Hlen. apply minimax_rec_returns; [exact Hlen |].
  pose proof (blanks_le_length b). unfold search_fuel. lia.
Qed.

(** C6. On a terminal position [minimax] returns exactly [10 - depth] when
    [calculateWinner] reports the perspective player, exactly
    [-(10 - depth)] when it reports the other player, and exactly [0] when
    nobody has won and the board is full; the board is handed back as it
    was. *)
Theorem minimax_terminal_values (b : Board) (current perspective : player) (depth : Z) :
  (winner (calculateWinner b) = Some perspective ->
   minimax current perspective depth b = Returns (Int (10 - depth)) b)
  /\ (winner (calculateWinner b) = Some (opponent perspective) ->
      minimax current perspective depth b = Returns (Int (- (10 - depth))) b)
  /\ (winner (calculateWinner b) = None -> isBoardFull b = true ->
      minimax current perspective depth b = Returns (Int 0) b).
Proof.
  unfold minimax, search_fuel. rewrite minimax_rec_unfold.
  split; [| split].
  - intros ->. destruct perspective; reflexivity.
  - intros ->. replace (- (10 - depth)) with (depth - 10) by lia.
    destruct perspective; reflexivity.
  - intros -> ->. reflexivity.
Qed.

Lemma minimax_terminal_values_witness :
  minimax O X 3 [Some X; Some X; Some X; Some O; Some O; None; None; None; None]
  = Returns (Int 7) [Some X; Some X; Some X; Some O; Some O; None; None; None; None]
  /\ minimax X O 4 [Some X; Some X; Some X; Some O; Some O; None; None; None; None]
     = Returns (Int (-6)) [Some X; Some X; Some X; Some O; Some O; None; None; None; None]
  /\ minimax X X 9 [Some X; Some O; Some X; Some O; Some X; Some O; Some O; Some X; Some O]
     = Returns (Int 0) [Some X; Some O; Some X; Some O; Some X; Some O; Some O; Some X; Some O].
Proof.
  split; [| split].
  - apply (minimax_terminal_values
             [Some X; Some X; Some X; Some O; Some O; None; None; None; None] O X 3).
    reflexivity.
  - apply (minimax_terminal_values
             [Some X; Some X; Some X; Some O; Some O; None; None; None; None] X O 4).
    reflexivity.
  - apply (minimax_terminal_values
             [Some X; Some O; Some X; Some O; Some X; Some O; Some O; Some X; Some O] X X 9);
      reflexivity.
Defined.

(** ** bestMoveFor: the scored moves *)

Lemma move_score_functional (b : Board) (p : player) (i : nat) (s s' : number) :
  move_score b p i s -> move_score b p i s' -> s = s'.
Proof. unfold move_score. congruence. Qed.

Lemma number_eqb_eq (x y : number) : number_eqb x y = true <-> x = y.
Proof.
  destruct x, y; simpl; split; try discriminate; try reflexivity.
  - intros H. apply Z.eqb_eq in H. congruence.
  - intros [= ->]. apply Z.eqb_refl.
Qed.

Lemma number_gtb_int (x y : Z) : number_gtb (Int x) (Int y) = false <-> x <= y.
Proof. simpl. rewrite Z.ltb_ge. reflexivity. Qed.

Lemma number_gtb_irrefl (x : number) : number_gtb x x = false.
Proof. destruct x; simpl; [reflexivity | apply Z.ltb_irrefl | reflexivity]. Qed.

Lemma number_gtb_raise (x s bs : number) :
  number_gtb x bs = false ->
  number_gtb x (if number_gtb s bs then s else bs) = false.
Proof.
  destruct x as [| x |], s as [| s |], bs as [| bs |]; simpl; intros H;
    try discriminate; try reflexivity; try exact H.
  apply Z.ltb_ge in H. destruct (Z.ltb_spec bs s); simpl; apply Z.ltb_ge; lia.
Qed.

Lemma number_gtb_raised (s bs : number) :
  number_gtb s (if number_gtb s bs then s else bs) = false.
Proof.
  destruct (number_gtb s bs) eqn:H; [apply number_gtb_irrefl | exact H].
Qed.

Lemma blank_cells_snoc (b : Board) (done : list nat) (i : nat) :
  blank_cells b (done ++ [i]) =
  if truthy (b !! i) then blank_cells b done else blank_cells b done ++ [i].
Proof.
  unfold blank_cells. rewrite List.filter_app. simpl.
  destruct (truthy (b !! i)); simpl; [apply app_nil_r | reflexivity].
Qed.

Lemma In_blank_cells (b : Board) (i : nat) :
  length b = 9%nat ->
  In i (blank_cells b (seq 0 9)) <-> b !! i = Some None.
Proof.
  intros Hlen. unfold blank_cells. rewrite filter_In, in_seq, negb_true_iff. split.
  - intros [Hi Ht]. apply falsy_cell_is_null; [lia | exact Ht].
  - intros Hi. split; [| rewrite Hi; reflexivity].
    apply null_cell_in_range in Hi. lia.
Qed.

Lemma score_moves_scored (b : Board) (p : player) :
  length b = 9%nat ->
  exists vars, score_moves p b = Returns vars b /\ scored b p (seq 0 9) vars.
Proof.
  intros Hlen. unfold score_moves.
  apply (for_each_try_cells b p (minimax (opponent p) p 0)
           (fun i (vars : number * list ScoredMove) sc =>
              (if number_gtb sc (fst vars) then sc else fst vars,
               snd vars ++ [{| idx := i; score := sc |}]))
           _ (scored b p)) with (done := @nil nat).
  - intros i [bs sm]. reflexivity.
  - exact Hlen.
  - intros done i [bs sm] (Hidx & Hall & Hnil & Hcons) Ht.
    unfold scored. rewrite blank_cells_snoc, Ht. auto.
  - intros done i [bs sm] (Hidx & Hall & Hnil & Hcons) Hnull.
    destruct (minimax_returns (<[i := Some p]> b) (opponent p) p 0) as [z Hz].
    { rewrite length_insert. exact Hlen. }
    exists (Int z). split; [exact Hz |]. cbn [fst snd scored].
    split; [| split; [| split]].
    + rewrite map_app, blank_cells_snoc, Hnull, Hidx. reflexivity.
    + intros m Hm. apply in_app_or in Hm as [Hm | [<- | []]].
      * destruct (Hall m Hm) as (H1 & H2 & H3).
        split; [exact H1 |]. split; [exact H2 |]. apply number_gtb_raise, H3.
      * cbn [score idx]. split; [eexists; reflexivity |]. split; [exact Hz |].
        apply number_gtb_raised.
    + intros H. destruct sm; discriminate.
    + intros _. destruct (number_gtb (Int z) bs) eqn:Hgt.
      * exists {| idx := i; score := Int z |}. split; [| reflexivity].
        apply in_or_app. right. left. reflexivity.
      * destruct sm as [| m0 sm].
        { rewrite (Hnil eq_refl) in Hgt. discriminate. }
        destruct Hcons as (m & Hm & Hsc); [discriminate |].
        exists m. split; [apply in_or_app; left; exact Hm | exact Hsc].
  - intros i Hi. apply in_seq in Hi. lia.
  - split; [reflexivity |]. split; [intros m0 [] |].
    split; [intros _; reflexivity | intros H; contradiction].
Qed.

(** ** bestMoveFor: the returned move *)

Lemma bestMoveFor_unfold (u : Q) (p : player) (b : Board) :
  bestMoveFor u p b =
  match score_moves p b with
  | Returns (bestScore, scoredMoves) b' =>
      if (length (top_of bestScore scoredMoves) =? 0)%nat then Returns None b'
      else
        match random_pick u (top_of bestScore scoredMoves) b' with
        | Returns choice b'' => Returns (Some (idx choice)) b''
        | OutOfFuel => OutOfFuel
        | OutOfRange => OutOfRange
        end
  | OutOfFuel => OutOfFuel
  | OutOfRange => OutOfRange
  end.
Proof.
  unfold bestMoveFor, bind.
  destruct (score_moves p b) as [[bs sm] b' | |]; try reflexivity.
  destruct (length (top_of bs sm) =? 0)%nat; reflexivity.
Qed.

(** Once the scores are known, the move is one of the top-scored ones. *)
Lemma bestMoveFor_from_scores (u : Q) (p : player) (b b' : Board)
    (bestScore : number) (scoredMoves : list ScoredMove) :
  unit_draw u ->
  score_moves p b = Returns (bestScore, scoredMoves) b' ->
  match top_of bestScore scoredMoves with
  | [] => bestMoveFor u p b = Returns None b'
  | _ :: _ =>
      exists m, In m (top_of bestScore scoredMoves)
                /\ bestMoveFor u p b = Returns (Some (idx m)) b'
  end.
Proof.
  intros Hu Hsc. rewrite bestMoveFor_unfold, Hsc.
  destruct (top_of bestScore scoredMoves) as [| m0 top] eqn:Htop; [reflexivity |].
  destruct (random_pick_returns u (m0 :: top) Hu) as (m & _ & Hin & Hret).
  { simpl. lia. }
  exists m. split; [exact Hin |]. cbn [length Nat.eqb]. rewrite Hret. reflexivity.
Qed.

Lemma bestMoveFor_spec (u : Q) (p : player) (b : Board) :
  length b = 9%nat -> unit_draw u ->
  ((forall j, b !! j <> Some None) /\ bestMoveFor u p b = Returns None b)
  \/ (exists i s,
        bestMoveFor u p b = Returns (Some i) b
        /\ b !! i = Some None
        /\ move_score b p i (Int s)
        /\ forall j, b !! j = Some None ->
                     exists sj, move_score b p j (Int sj) /\ sj <= s).
Proof.
  intros Hlen Hu.
  destruct (score_moves_scored b p Hlen) as ([bs sm] & Hsc & Hidx & Hall & Hnil & Hcons).
  pose proof (bestMoveFor_from_scores u p b b bs sm Hu Hsc) as Hbest.
  destruct sm as [| m0 sm'] eqn:Hsm.
  - left. split; [| exact Hbest].
    intros j Hj. apply (In_blank_cells b j Hlen) in Hj. rewrite <- Hidx in Hj. exact Hj.
  - right. rewrite <- Hsm in *. clear Hnil.
    destruct Hcons as (mtop & Hmtop & Hmtop_sc); [rewrite Hsm; discriminate |].
    assert (Htop : In mtop (top_of bs sm)).
    { apply filter_In. split; [exact Hmtop | apply number_eqb_eq, Hmtop_sc]. }
    destruct (top_of bs sm) as [| t0 top] eqn:Etop; [destruct Htop |].
    destruct Hbest as (m & Hm & Hret). rewrite <- Etop in Hm.
    apply filter_In in Hm as [Hm Hmsc]. apply number_eqb_eq in Hmsc.
    destruct (Hall m Hm) as ([s Hs] & Hscore & _).
    exists (idx m), s. split; [exact Hret |]. split; [| split].
    + apply (In_blank_cells b _ Hlen). rewrite <- Hidx. apply in_map, Hm.
    + rewrite <- Hs. exact Hscore.
    + intros j Hj. apply (In_blank_cells b j Hlen) in Hj. rewrite <- Hidx in Hj.
      apply in_map_iff in Hj as (mj & <- & Hmj).
      destruct (Hall mj Hmj) as ([sj Hsj] & Hscorej & Hle).
      exists sj. split; [rewrite <- Hsj; exact Hscorej |].
      rewrite Hsj, <- Hmsc, Hs in Hle. apply number_gtb_int, Hle.
Qed.

(** C5. On a board with at least one empty cell, whatever the random draw,
    [bestMoveFor] returns an empty cell whose score (the value of [minimax]
    on the board with that cell filled by the player, the opponent to move,
    depth 0) is the maximum of that score over all empty cells. *)
Theorem bestMoveFor_score_is_maximal (b : Board) (p : player) (u : Q) :
  length b = 9%nat -> unit_draw u ->
  (exists j, b !! j = Some None) ->
  exists i s,
    bestMoveFor u p b = Returns (Some i) b
    /\ b !! i = Some None
    /\ move_score b p i (Int s)
    /\ forall j, b !! j = Some None ->
                 exists sj, move_score b p j (Int sj) /\ sj <= s.
Proof.
  intros Hlen Hu [j Hj].
  destruct (bestMoveFor_spec u p b Hlen Hu) as [[Hnone _] | H]; [| exact H].
  exfalso. exact (Hnone j Hj).
Qed.

Lemma bestMoveFor_score_is_maximal_witness :
  exists i s,
    bestMoveFor (1 # 2) O [Some X; None; None; None; Some O; None; None; None; Some X]
    = Returns (Some i) [Some X; None; None; None; Some O; None; None; None; Some X]
    /\ [Some X; None; None; None; Some O; None; None; None; Some X] !! i = Some None
    /\ move_score [Some X; None; None; None; Some O; None; None; None; Some X] O i (Int s)
    /\ forall j, [Some X; None; None; None; Some O; None; None; None; Some X] !! j = Some None ->
                 exists sj,
                   move_score [Some X; None; None; None; Some O; None; None; None; Some X] O j (Int sj)
                   /\ sj <= s.
Proof.
  apply (bestMoveFor_score_is_maximal
           [Some X; None; None; None; Some O; None; None; None; Some X] O (1 # 2)).
  - reflexivity.
  - literal_draw.
  - exists 1%nat. reflexivity.
Defined.

(** C8. [bestMoveFor] and [minimax] return on every 9-cell board, and the
    array they hand back is the array they were given: every placement made
    during the search has been undone. *)
Theorem search_leaves_board_unchanged (b : Board) (p current perspective : player)
    (depth : Z) (u : Q) :
  length b = 9%nat -> unit_draw u ->
  (exists r, bestMoveFor u p b = Returns r b)
  /\ (exists v, minimax current perspective depth b = Returns v b).
Proof.
  intros Hlen Hu. split.
  - destruct (bestMoveFor_spec u p b Hlen Hu) as [[_ H] | (i & s & H & _)];
      eexists; exact H.
  - destruct (minimax_returns b current perspective depth Hlen) as [z Hz].
    eexists; exact Hz.
Qed.

Lemma search_leaves_board_unchanged_witness :
  (exists r, bestMoveFor (1 # 2) X [Some X; Some O; None; None; Some O; None; Some X; None; None]
             = Returns r [Some X; Some O; None; None; Some O; None; Some X; None; None])
  /\ (exists v, minimax O X 3 [Some X; Some O; None; None; Some O; None; Some X; None; None]
                = Returns v [Some X; Some O; None; None; Some O; None; Some X; None; None]).
Proof.
  apply (search_leaves_board_unchanged
           [Some X; Some O; None; None; Some O; None; Some X; None; None] X O X 3 (1 # 2)).
  - reflexivity.
  - literal_draw.
Defined.

(** C9. [bestMoveFor] returns [null] exactly when the board has no empty
    cell; as soon as one cell is empty it returns an index, also on a board
    that already holds a completed line. *)
Theorem bestMoveFor_null_iff_no_empty_cell (b : Board) (p : player) (u : Q) :
  length b = 9%nat -> unit_draw u ->
  (bestMoveFor u p b = Returns None b <-> forall j, b !! j <> Some None)
  /\ ((exists j, b !! j = Some None) -> exists i, bestMoveFor u p b = Returns (Some i) b).
Proof.
  intros Hlen Hu.
  destruct (bestMoveFor_spec u p b Hlen Hu) as [[Hnone Hret] | (i & s & Hret & Hi & _)].
  - split.
    + split; [intros _; exact Hnone | intros _; exact Hret].
    + intros [j Hj]. exfalso. exact (Hnone j Hj).
  - split.
    + split.
      * rewrite Hret. discriminate.
      * intros H. exfalso. exact (H i Hi).
    + intros _. exists i. exact Hret.
Qed.

Lemma bestMoveFor_null_iff_no_empty_cell_witness :
  (bestMoveFor (1 # 2) O [Some X; Some X; Some X; Some O; Some O; None; None; None; None]
   = Returns None [Some X; Some X; Some X; Some O; Some O; None; None; None; None]
   <-> forall j, [Some X; Some X; Some X; Some O; Some O; None; None; None; None] !! j <> Some None)
  /\ ((exists j, [Some X; Some X; Some X; Some O; Some O; None; None; None; None] !! j = Some None) ->
      exists i, bestMoveFor (1 # 2) O [Some X; Some X; Some X; Some O; Some O; None; None; None; None]
                = Returns (Some i) [Some X; Some X; Some X; Some O; Some O; None; None; None; None]).
Proof.
  apply (bestMoveFor_null_iff_no_empty_cell
           [Some X; Some X; Some X; Some O; Some O; None; None; None; None] O (1 # 2)).
  - reflexivity.
  - literal_draw.
Defined.

(** ** The helpers of the difficulty tiers *)

Lemma In_empties_from (k : nat) (b : Board) (i : nat) :
  In i (empties_from k b) <-> exists j, i = (k + j)%nat /\ b !! j = Some None.
Proof.
  revert k. induction b as [| v rest IH]; intros k; cbn [empties_from].
  - split; [intros [] | intros (j & _ & Hj); discriminate].
  - destruct v as [q |]; cbn [truthy In]; rewrite ?IH.
    + split.
      * intros (j & -> & Hj). exists (S j). split; [lia | exact Hj].
      * intros ([| j] & -> & Hj); [discriminate |]. exists j. split; [lia | exact Hj].
    + split.
      * intros [<- | (j & -> & Hj)].
        -- exists 0%nat. split; [lia | reflexivity].
        -- exists (S j). split; [lia | exact Hj].
      * intros ([| j] & -> & Hj); [left; lia |]. right. exists j. split; [lia | exact Hj].
Qed.

Lemma In_empties (b : Board) (i : nat) : In i (empties b) <-> b !! i = Some None.
Proof.
  unfold empties. rewrite In_empties_from. split.
  - intros (j & -> & Hj). exact Hj.
  - intros Hi. exists i. split; [reflexivity | exact Hi].
Qed.

Lemma NoDup_empties_from (k : nat) (b : Board) : List.NoDup (empties_from k b).
Proof.
  revert k. induction b as [| v rest IH]; intros k; cbn [empties_from].
  - constructor.
  - destruct v as [q |]; cbn [truthy]; [apply IH |].
    constructor; [| apply IH].
    rewrite In_empties_from. intros (j & Hj & _). lia.
Qed.

Lemma empties_nil (b : Board) : empties b = [] <-> forall i, b !! i <> Some None.
Proof.
  split.
  - intros He i Hi. apply In_empties in Hi. rewrite He in Hi. exact Hi.
  - intros H. destruct (empties b) as [| i rest] eqn:He; [reflexivity |].
    exfalso. apply (H i), In_empties. rewrite He. left. reflexivity.
Qed.

Lemma winner_is_true (w : WinResult) (pl : player) :
  winner_is w pl = true <-> winner w = Some pl.
Proof.
  unfold winner_is. destruct (winner w) as [[]|], pl; simpl; split;
    first [reflexivity | discriminate].
Qed.

Lemma In_winning_cells (b : Board) (pl : player) (i : nat) :
  In i (winning_cells b pl) <-> wins_at b pl i.
Proof.
  unfold winning_cells, wins_at, wins_test.
  rewrite filter_In, In_empties, winner_is_true. reflexivity.
Qed.

Lemma NoDup_winning_cells (b : Board) (pl : player) : List.NoDup (winning_cells b pl).
Proof. apply List.NoDup_filter, NoDup_empties_from. Qed.

Lemma find_head_filter {A} (f : A -> bool) (l : list A) :
  List.find f l = head (List.filter f l).
Proof.
  induction l as [| x l IH]; simpl; [reflexivity |].
  destruct (f x); [reflexivity | exact IH].
Qed.

Lemma findWinningMove_loop_spec (pl : player) (b : Board) (es : list nat) :
  (forall i, In i es -> b !! i = Some None) ->
  findWinningMove_loop pl es b = Returns (List.find (wins_test b pl) es) b.
Proof.
  induction es as [| i rest IH]; intros Hes; [reflexivity |].
  cbn [findWinningMove_loop List.find].
  assert (Hi : b !! i = Some None) by (apply Hes; left; reflexivity).
  rewrite (place_run_clear b i pl (gets calculateWinner)
             (calculateWinner (<[i := Some pl]> b)) _ Hi eq_refl).
  fold (wins_test b pl i). destruct (wins_test b pl i); [reflexivity |].
  apply IH. intros j Hj. apply Hes. right. exact Hj.
Qed.

(** [findWinningMove] returns the first immediate winning cell, if any, and
    hands the array back as it was. *)
Lemma findWinningMove_spec (pl : player) (b : Board) :
  findWinningMove pl b = Returns (head (winning_cells b pl)) b.
Proof.
  unfold findWinningMove, bind, gets. cbv beta iota.
  rewrite findWinningMove_loop_spec by (intros i; apply In_empties).
  unfold winning_cells. rewrite find_head_filter. reflexivity.
Qed.

Lemma head_winning_cells_Some (b : Board) (pl : player) (i : nat) :
  head (winning_cells b pl) = Some i -> wins_at b pl i.
Proof.
  intros H. apply In_winning_cells. destruct (winning_cells b pl); [discriminate |].
  injection H as ->. left. reflexivity.
Qed.

Lemma head_winning_cells_None (b : Board) (pl : player) :
  head (winning_cells b pl) = None <-> forall i, ~ wins_at b pl i.
Proof.
  split.
  - intros H i Hi. apply In_winning_cells in Hi.
    destruct (winning_cells b pl); [exact Hi | discriminate].
  - intros H. destruct (winning_cells b pl) as [| i rest] eqn:Hw; [reflexivity |].
    exfalso. apply (H i), In_winning_cells. rewrite Hw. left. reflexivity.
Qed.

Lemma randomMove_unfold (u : Q) (b : Board) :
  randomMove u b =
  match empties b with
  | [] => Returns None b
  | _ :: _ =>
      match empties b !! random_index u (length (empties b)) with
      | Some i => Returns (Some i) b
      | None => OutOfRange
      end
  end.
Proof.
  unfold randomMove, bind, gets, random_pick. cbv beta iota.
  destruct (empties b) as [| e0 es]; [reflexivity |].
  cbn [length Nat.eqb].
  destruct ((e0 :: es) !! random_index u (S (length es))); reflexivity.
Qed.

Lemma is_null_true (v : option Mark) : is_null v = true <-> v = Some None.
Proof.
  destruct v as [[[]|]|]; simpl; split; first [reflexivity | discriminate].
Qed.

Lemma In_empty_corners (b : Board) (c : nat) :
  In c (empty_corners b) <-> In c [0; 2; 6; 8]%nat /\ b !! c = Some None.
Proof. unfold empty_corners. rewrite filter_In, is_null_true. reflexivity. Qed.

Lemma mediumMove_unfold (u : Q) (pl : player) (b : Board) :
  mediumMove u pl b =
  match head (winning_cells b pl) with
  | Some i => Returns (Some i) b
  | None =>
      match head (winning_cells b (opponent pl)) with
      | Some i => Returns (Some i) b
      | None =>
          if is_null (b !! 4%nat) then Returns (Some 4%nat) b
          else
            match empty_corners b with
            | [] => randomMove u b
            | _ :: _ =>
                match empty_corners b !! random_index u (length (empty_corners b)) with
                | Some c => Returns (Some c) b
                | None => OutOfRange
                end
            end
      end
  end.
Proof.
  unfold mediumMove. unfold bind at 1. rewrite findWinningMove_spec.
  destruct (head (winning_cells b pl)); [reflexivity |].
  unfold bind at 1. rewrite findWinningMove_spec.
  destruct (head (winning_cells b (opponent pl))); [reflexivity |].
  unfold bind at 1, read. destruct (is_null (b !! 4%nat)); [reflexivity |].
  unfold bind at 1, gets. fold (empty_corners b).
  destruct (empty_corners b) as [| c0 cs]; [reflexivity |].
  cbn [length Nat.eqb negb]. unfold bind, random_pick.
  destruct (_ !! random_index _ _); reflexivity.
Qed.

Lemma uniform_choice_exists {A} (u : Q) (l : list A) :
  unit_draw u -> l <> [] -> exists x, uniform_choice u l x /\ In x l.
Proof.
  intros Hu Hl. destruct (random_pick_returns u l Hu) as (x & Hx & Hin & _).
  - destruct l; [contradiction | simpl; lia].
  - exists x. split; assumption.
Qed.

Lemma randomMove_spec (u : Q) (b : Board) :
  unit_draw u ->
  (empties b = [] /\ randomMove u b = Returns None b)
  \/ (exists i, uniform_choice u (empties b) i /\ b !! i = Some None
                /\ randomMove u b = Returns (Some i) b).
Proof.
  intros Hu. rewrite randomMove_unfold.
  destruct (empties b) as [| e0 es] eqn:He; [left; split; reflexivity |].
  right. destruct (uniform_choice_exists u (e0 :: es) Hu) as (i & Hi & Hin); [discriminate |].
  exists i. split; [exact Hi |]. split.
  - apply In_empties. rewrite He. exact Hin.
  - unfold uniform_choice in Hi. rewrite Hi. reflexivity.
Qed.

(** C7. [mediumMove] selects by priority: (1) an immediate winning cell of
    the acting player; (2) else an immediate winning cell of the opponent;
    (3) else the centre, index 4, if it is empty; (4) else an empty corner,
    chosen among the empty corners by the draw; (5) else an empty cell, chosen
    among all empty cells by the draw; it returns [null] only when no cell is
    empty.  The array is handed back as it was. *)
Theorem mediumMove_priority (b : Board) (pl : player) (u : Q) :
  unit_draw u ->
  exists r,
    mediumMove u pl b = Returns r b
    /\ ((exists i, wins_at b pl i) -> exists i, r = Some i /\ wins_at b pl i)
    /\ ((forall i, ~ wins_at b pl i) -> (exists j, wins_at b (opponent pl) j) ->
        exists j, r = Some j /\ wins_at b (opponent pl) j)
    /\ ((forall i, ~ wins_at b pl i) -> (forall j, ~ wins_at b (opponent pl) j) ->
        (b !! 4%nat = Some None -> r = Some 4%nat)
        /\ (b !! 4%nat <> Some None ->
            (exists c, In c [0; 2; 6; 8]%nat /\ b !! c = Some None) ->
            exists c, r = Some c /\ In c [0; 2; 6; 8]%nat /\ b !! c = Some None
                      /\ uniform_choice u (empty_corners b) c)
        /\ (b !! 4%nat <> Some None ->
            (forall c, In c [0; 2; 6; 8]%nat -> b !! c <> Some None) ->
            (exists i, b !! i = Some None) ->
            exists i, r = Some i /\ b !! i = Some None
                      /\ uniform_choice u (empties b) i))
    /\ (r = None <-> forall i, b !! i <> Some None).
Proof.
  intros Hu. rewrite mediumMove_unfold.
  destruct (head (winning_cells b pl)) as [w |] eqn:Hw.
  { (* 1: win now *)
    pose proof (head_winning_cells_Some _ _ _ Hw) as Hwin.
    exists (Some w). split; [reflexivity |]. split; [| split; [| split]].
    - intros _. exists w. split; [reflexivity | exact Hwin].
    - intros Hno. exfalso. exact (Hno w Hwin).
    - intros Hno. exfalso. exact (Hno w Hwin).
    - split; [discriminate |]. intros Hno. exfalso. destruct Hwin as [Hnull _].
      exact (Hno w Hnull). }
  rewrite head_winning_cells_None in Hw.
  destruct (head (winning_cells b (opponent pl))) as [k |] eqn:Hk.
  { (* 2: block *)
    pose proof (head_winning_cells_Some _ _ _ Hk) as Hblock.
    exists (Some k). split; [reflexivity |]. split; [| split; [| split]].
    - intros [i Hi]. exfalso. exact (Hw i Hi).
    - intros _ _. exists k. split; [reflexivity | exact Hblock].
    - intros _ Hno. exfalso. exact (Hno k Hblock).
    - split; [discriminate |]. intros Hno. exfalso. destruct Hblock as [Hnull _].
      exact (Hno k Hnull). }
  rewrite head_winning_cells_None in Hk.
  destruct (is_null (b !! 4%nat)) eqn:Hcenter.
  { (* 3: centre *)
    apply is_null_true in Hcenter.
    exists (Some 4%nat). split; [reflexivity |]. split; [| split; [| split]].
    - intros [i Hi]. exfalso. exact (Hw i Hi).
    - intros _ [j Hj]. exfalso. exact (Hk j Hj).
    - intros _ _. split; [reflexivity |]. split; intros Hne; contradiction.
    - split; [discriminate |]. intros Hno. exfalso. exact (Hno _ Hcenter). }
  assert (Hcenter' : b !! 4%nat <> Some None).
  { intros H. apply is_null_true in H. congruence. }
  destruct (empty_corners b) as [| c0 cs] eqn:Hcorners.
  - (* 5: any empty cell *)
    assert (Hnocorner : forall c, In c [0; 2; 6; 8]%nat -> b !! c <> Some None).
    { intros c Hc Hnull. assert (Hin : In c (empty_corners b)) by (apply In_empty_corners; auto).
      rewrite Hcorners in Hin. exact Hin. }
    destruct (randomMove_spec u b Hu) as [[He Hret] | (i & Hi & Hnull & Hret)].
    + exists None. split; [exact Hret |]. split; [| split; [| split]].
      * intros [i Hi]. exfalso. exact (Hw i Hi).
      * intros _ [j Hj]. exfalso. exact (Hk j Hj).
      * intros _ _. split; [intros Hc; contradiction |]. split.
        -- intros _ (c & Hc & Hnull). exfalso. exact (Hnocorner c Hc Hnull).
        -- intros _ _ [i Hi]. exfalso. exact (proj1 (empties_nil b) He i Hi).
      * split; [intros _; exact (proj1 (empties_nil b) He) | reflexivity].
    + exists (Some i). split; [exact Hret |]. split; [| split; [| split]].
      * intros [i' Hi']. exfalso. exact (Hw i' Hi').
      * intros _ [j Hj]. exfalso. exact (Hk j Hj).
      * intros _ _. split; [intros Hc; contradiction |]. split.
        -- intros _ (c & Hc & Hcnull). exfalso. exact (Hnocorner c Hc Hcnull).
        -- intros _ _ _. exists i. auto.
      * split; [discriminate |]. intros Hno. exfalso. exact (Hno i Hnull).
  - (* 4: an empty corner *)
    rewrite <- Hcorners.
    destruct (uniform_choice_exists u (empty_corners b) Hu) as (c & Hc & Hin).
    { rewrite Hcorners. discriminate. }
    pose proof Hc as Hc'. unfold uniform_choice in Hc'. rewrite Hc'.
    apply In_empty_corners in Hin as [Hcorner Hnull].
    exists (Some c). split; [reflexivity |]. split; [| split; [| split]].
    + intros [i Hi]. exfalso. exact (Hw i Hi).
    + intros _ [j Hj]. exfalso. exact (Hk j Hj).
    + intros _ _. split; [intros H; contradiction |]. split.
      * intros _ _. exists c. auto.
      * intros _ Hnocorner. exfalso. exact (Hnocorner c Hcorner Hnull).
    + split; [discriminate |]. intros Hno. exfalso. exact (Hno c Hnull).
Qed.

Lemma mediumMove_priority_witness :
  exists r,
    mediumMove (1 # 2) X [Some X; Some O; None; None; Some O; None; None; Some X; None]
    = Returns r [Some X; Some O; None; None; Some O; None; None; Some X; None]
    /\ r = Some 6%nat.
Proof.
  destruct (mediumMove_priority
              [Some X; Some O; None; None; Some O; None; None; Some X; None] X (1 # 2))
    as (r & Hret & _ & _ & Hrest & _).
  - literal_draw.
  - exists r. split; [exact Hret |].
    destruct Hrest as (_ & Hcorner & _).
    + intros i [_ Hi].
      destruct i as [| [| [| [| [| [| [| [| [| i]]]]]]]]]; vm_compute in Hi; discriminate.
    + intros i [Hn Hi].
      destruct i as [| [| [| [| [| [| [| [| [| i]]]]]]]]]; vm_compute in Hi, Hn; discriminate.
    + destruct Hcorner as (c & -> & _ & _ & Hpick).
      * discriminate.
      * exists 2%nat. split; [simpl; tauto | reflexivity].
      * vm_compute in Hpick. symmetry. exact Hpick.
Defined.

(** ** Legality of the returned move *)

Lemma legal_cell (b : Board) (i : nat) :
  length b = 9%nat -> b !! i = Some None -> (i < 9)%nat /\ b !! i = Some None.
Proof.
  intros Hlen Hi. split; [| exact Hi]. apply null_cell_in_range in Hi. lia.
Qed.

Lemma bestMoveFor_legal (b : Board) (pl : player) (u : Q) :
  length b = 9%nat -> unit_draw u -> legal_result b (bestMoveFor u pl b).
Proof.
  intros Hlen Hu.
  destruct (bestMoveFor_spec u pl b Hlen Hu) as [[_ Hret] | (i & s & Hret & Hi & _)].
  - exists None. split; [exact Hret | discriminate].
  - exists (Some i). split; [exact Hret |]. intros ? [= <-]. apply legal_cell; assumption.
Qed.

Lemma randomMove_legal (b : Board) (u : Q) :
  length b = 9%nat -> unit_draw u -> legal_result b (randomMove u b).
Proof.
  intros Hlen Hu.
  destruct (randomMove_spec u b Hu) as [[_ Hret] | (i & _ & Hi & Hret)].
  - exists None. split; [exact Hret | discriminate].
  - exists (Some i). split; [exact Hret |]. intros ? [= <-]. apply legal_cell; assumption.
Qed.

Lemma findWinningMove_legal (b : Board) (pl : player) :
  length b = 9%nat -> legal_result b (findWinningMove pl b).
Proof.
  intros Hlen. exists (head (winning_cells b pl)).
  split; [apply findWinningMove_spec |].
  intros i Hi. apply head_winning_cells_Some in Hi as [Hi _]. apply legal_cell; assumption.
Qed.

Lemma mediumMove_legal (b : Board) (pl : player) (u : Q) :
  length b = 9%nat -> unit_draw u -> legal_result b (mediumMove u pl b).
Proof.
  intros Hlen Hu. rewrite mediumMove_unfold.
  destruct (head (winning_cells b pl)) as [w |] eqn:Hw.
  { exists (Some w). split; [reflexivity |]. intros ? [= <-].
    apply head_winning_cells_Some in Hw as [Hw _]. apply legal_cell; assumption. }
  destruct (head (winning_cells b (opponent pl))) as [k |] eqn:Hk.
  { exists (Some k). split; [reflexivity |]. intros ? [= <-].
    apply head_winning_cells_Some in Hk as [Hk _]. apply legal_cell; assumption. }
  destruct (is_null (b !! 4%nat)) eqn:Hcenter.
  { exists (Some 4%nat). split; [reflexivity |]. intros ? [= <-].
    apply is_null_true in Hcenter. apply legal_cell; assumption. }
  destruct (empty_corners b) as [| c0 cs] eqn:Hcorners.
  - apply randomMove_legal; assumption.
  - rewrite <- Hcorners.
    destruct (uniform_choice_exists u (empty_corners b) Hu) as (c & Hc & Hin).
    { rewrite Hcorners. discriminate. }
    unfold uniform_choice in Hc. rewrite Hc.
    exists (Some c). split; [reflexivity |]. intros ? [= <-].
    apply In_empty_corners in Hin as [_ Hnull]. apply legal_cell; assumption.
Qed.

(** C10. Whenever [bestMoveFor], [mediumMove], [randomMove],
    [findWinningMove] or [pickByDifficulty] (at any difficulty) returns an
    index rather than [null], the index lies in 0..8 and that cell of the
    board passed in is empty; each of them returns and hands the board back
    as it was, whatever the random draw. *)
Theorem returned_move_is_legal (b : Board) (pl : player) (u : Q) (diff : difficulty) :
  length b = 9%nat -> unit_draw u ->
  legal_result b (bestMoveFor u pl b)
  /\ legal_result b (mediumMove u pl b)
  /\ legal_result b (randomMove u b)
  /\ legal_result b (findWinningMove pl b)
  /\ legal_result b (pickByDifficulty u pl diff b).
Proof.
  intros Hlen Hu.
  split; [apply bestMoveFor_legal; assumption |].
  split; [apply mediumMove_legal; assumption |].
  split; [apply randomMove_legal; assumption |].
  split; [apply findWinningMove_legal; assumption |].
  destruct diff; cbn [pickByDifficulty].
  - apply randomMove_legal; assumption.
  - apply mediumMove_legal; assumption.
  - apply bestMoveFor_legal; assumption.
Qed.

Lemma returned_move_is_legal_witness :
  legal_result [Some X; None; None; None; Some O; None; None; None; None]
    (bestMoveFor (1 # 3) X [Some X; None; None; None; Some O; None; None; None; None])
  /\ legal_result [Some X; None; None; None; Some O; None; None; None; None]
       (mediumMove (1 # 3) X [Some X; None; None; None; Some O; None; None; None; None])
  /\ legal_result [Some X; None; None; None; Some O; None; None; None; None]
       (randomMove (1 # 3) [Some X; None; None; None; Some O; None; None; None; None])
  /\ legal_result [Some X; None; None; None; Some O; None; None; None; None]
       (findWinningMove X [Some X; None; None; None; Some O; None; None; None; None])
  /\ legal_result [Some X; None; None; None; Some O; None; None; None; None]
       (pickByDifficulty (1 # 3) X medium
          [Some X; None; None; None; Some O; None; None; None; None]).
Proof.
  apply (returned_move_is_legal
           [Some X; None; None; None; Some O; None; None; None; None] X (1 # 3) medium).
  - reflexivity.
  - literal_draw.
Defined.

(** ** The value minimax computes, as a function of the position *)

Lemma minimax_rec_value (fuel : nat) (b : Board) (current ai : player) (depth : Z) :
  length b = 9%nat -> (blanks b < fuel)%nat ->
  minimax_rec fuel current ai depth b = Returns (value fuel current ai depth b) b.
Proof.
  revert b current ai depth.
  induction fuel as [| fuel IH]; intros b current ai depth Hlen Hfuel; [lia |].
  rewrite minimax_rec_unfold. cbn [value]. unfold value_step.
  destruct (winner (calculateWinner b)) as [w |]; [reflexivity |].
  destruct (isBoardFull b); [reflexivity |].
  set (start := if player_eqb current ai then NegInfinity else Infinity).
  set (iter := fun best i =>
                 consider (player_eqb current ai) (b !! i) best
                   (fun _ => value fuel (opponent current) ai (depth + 1)
                               (<[i := Some current]> b))).
  destruct (for_each_try_cells b current
              (minimax_rec fuel (opponent current) ai (depth + 1))
              (fun (_ : nat) best sc =>
                 if player_eqb current ai then Math_max best sc else Math_min best sc)
              _ (fun done best => best = fold_left iter done start)
              (fun _ _ => eq_refl) Hlen) with (ixs := seq 0 9) (done := @nil nat) (s := start)
    as (best & Hbest & ->).
  - intros done i s -> Ht. rewrite fold_left_app. cbn [fold_left].
    symmetry. unfold iter at 1, consider. rewrite Ht. reflexivity.
  - intros done i s -> Hnull.
    exists (value fuel (opponent current) ai (depth + 1) (<[i := Some current]> b)).
    split.
    + apply IH; [rewrite length_insert; exact Hlen |].
      pose proof (blanks_place b i current Hnull). lia.
    + rewrite fold_left_app. cbn [fold_left]. symmetry. unfold iter at 1, consider.
      rewrite Hnull. reflexivity.
  - intros i Hi. apply in_seq in Hi. lia.
  - reflexivity.
  - exact Hbest.
Qed.

Lemma minimax_value (b : Board) (current ai : player) (depth : Z) :
  length b = 9%nat ->
  minimax current ai depth b = Returns (value search_fuel current ai depth b) b.
Proof.
  intros Hlen. apply minimax_rec_value; [exact Hlen |].
  pose proof (blanks_le_length b). unfold search_fuel. lia.
Qed.

Lemma score_moves_pure (p : player) (b : Board) :
  length b = 9%nat ->
  score_moves p b = Returns (pure_scores (value search_fuel) p b) b.
Proof.
  intros Hlen. unfold score_moves, pure_scores.
  destruct (for_each_try_cells b p (minimax (opponent p) p 0)
              (fun i (vars : number * list ScoredMove) sc =>
                 (if number_gtb sc (fst vars) then sc else fst vars,
                  snd vars ++ [{| idx := i; score := sc |}]))
              (fun i '(bestScore, scoredMoves) =>
                 c <- read i ;;
                 if truthy c then ret (bestScore, scoredMoves)
                 else
                   write i (Some p) ;;;
                   sc <- minimax (opponent p) p 0 ;;
                   write i None ;;;
                   let scoredMoves := scoredMoves ++ [{| idx := i; score := sc |}] in
                   ret (if number_gtb sc bestScore then sc else bestScore, scoredMoves))
              (fun done vars =>
                 vars = fold_left (score_cell (value search_fuel) p b) done (NegInfinity, []))
              (fun i '(bs, sm) => eq_refl) Hlen)
    with (ixs := seq 0 9) (done := @nil nat) (s := (NegInfinity, @nil ScoredMove))
    as (vars & Hvars & ->).
  - intros done i s -> Ht. rewrite fold_left_app. cbn [fold_left].
    symmetry. unfold score_cell at 1. rewrite Ht. reflexivity.
  - intros done i s -> Hnull.
    exists (value search_fuel (opponent p) p 0 (<[i := Some p]> b)). split.
    + apply minimax_value. rewrite length_insert. exact Hlen.
    + rewrite fold_left_app. cbn [fold_left]. symmetry. unfold score_cell at 1.
      rewrite Hnull. reflexivity.
  - intros i Hi. apply in_seq in Hi. lia.
  - reflexivity.
  - exact Hvars.
Qed.

(** Whatever the draw, [bestMoveFor] returns one of [top_cells], or [null]
    when there is none. *)
Lemma bestMoveFor_top_cells (u : Q) (p : player) (b : Board) :
  length b = 9%nat -> unit_draw u ->
  match top_cells (value search_fuel) p b with
  | [] => bestMoveFor u p b = Returns None b
  | _ :: _ =>
      exists i, In i (top_cells (value search_fuel) p b)
                /\ bestMoveFor u p b = Returns (Some i) b
  end.
Proof.
  intros Hlen Hu. unfold top_cells.
  pose proof (score_moves_pure p b Hlen) as Hsc.
  destruct (pure_scores (value search_fuel) p b) as [bs sm]. cbn [fst snd].
  pose proof (bestMoveFor_from_scores u p b b bs sm Hu Hsc) as Hbest.
  destruct (top_of bs sm) as [| m0 top]; [exact Hbest |].
  destruct Hbest as (m & Hm & Hret). exists (idx m).
  split; [apply in_map, Hm | exact Hret].
Qed.

(** ** The evaluator specialised to nine cells agrees with [value] *)

Lemma fold_left_ext_in {A B} (f g : A -> B -> A) (l : list B) (a : A) :
  (forall a x, In x l -> f a x = g a x) -> fold_left f l a = fold_left g l a.
Proof.
  revert a. induction l as [| x l IH]; intros a H; [reflexivity |].
  cbn [fold_left]. rewrite (H a x) by (left; reflexivity).
  apply IH. intros a' y Hy. apply H. right. exact Hy.
Qed.

(** [value_step] uses [rec] only on the positions one move further. *)
Lemma value_step_ext (rec1 rec2 : player -> player -> Z -> Board -> number)
    (current ai : player) (depth : Z) (b : Board) :
  length b = 9%nat ->
  (forall i, b !! i = Some None ->
             rec1 (opponent current) ai (depth + 1) (<[i := Some current]> b)
             = rec2 (opponent current) ai (depth + 1) (<[i := Some current]> b)) ->
  value_step rec1 current ai depth b = value_step rec2 current ai depth b.
Proof.
  intros Hlen Hrec. unfold value_step.
  destruct (winner (calculateWinner b)); [reflexivity |].
  destruct (isBoardFull b); [reflexivity |].
  apply fold_left_ext_in. intros best i Hi. unfold consider.
  destruct (truthy (b !! i)) eqn:Ht; [reflexivity |].
  rewrite Hrec; [reflexivity |].
  apply falsy_cell_is_null; [| exact Ht]. apply in_seq in Hi. lia.
Qed.

(** The result of [minimax_rec] does not depend on the recursion budget, once
    it exceeds the number of empty cells. *)
Lemma value_fuel_irrelevant (fuel fuel' : nat) (current ai : player) (depth : Z) (b : Board) :
  length b = 9%nat -> (blanks b < fuel)%nat -> (blanks b < fuel')%nat ->
  value fuel current ai depth b = value fuel' current ai depth b.
Proof.
  revert fuel' current ai depth b.
  induction fuel as [| fuel IH]; intros [| fuel'] current ai depth b Hlen H1 H2; try lia.
  cbn [value]. apply value_step_ext; [exact Hlen |].
  intros i Hi. pose proof (blanks_place b i current Hi).
  apply IH; [rewrite length_insert; exact Hlen | lia | lia].
Qed.

Lemma minimax_rec_fuel_irrelevant (fuel : nat) (current ai : player) (depth : Z) (b : Board) :
  length b = 9%nat -> (10 <= fuel)%nat ->
  minimax_rec fuel current ai depth b = minimax current ai depth b.
Proof.
  intros Hlen Hfuel. pose proof (blanks_le_length b).
  unfold minimax, search_fuel.
  rewrite !minimax_rec_value by (try exact Hlen; lia).
  f_equal. apply value_fuel_irrelevant; [exact Hlen | lia | lia].
Qed.

Lemma fast_step_eq (rec : player -> player -> Z -> cells -> number)
    (current ai : player) (depth : Z) (c0 c1 c2 c3 c4 c5 c6 c7 c8 : Mark) :
  fast_step rec current ai depth (Cells c0 c1 c2 c3 c4 c5 c6 c7 c8) =
  value_step (fun cur a d b => rec cur a d (pack b)) current ai depth
    [c0; c1; c2; c3; c4; c5; c6; c7; c8].
Proof. reflexivity. Qed.

Lemma nine_cells (b : Board) :
  length b = 9%nat ->
  exists c0 c1 c2 c3 c4 c5 c6 c7 c8, b = [c0; c1; c2; c3; c4; c5; c6; c7; c8].
Proof.
  intros Hlen.
  destruct b as [| c0 [| c1 [| c2 [| c3 [| c4 [| c5 [| c6 [| c7 [| c8 [| c9 b]]]]]]]]]];
    try discriminate.
  do 9 eexists. reflexivity.
Qed.

Lemma fast_value_correct (fuel : nat) (current ai : player) (depth : Z) (b : Board) :
  length b = 9%nat ->
  fast_value fuel current ai depth (pack b) = value fuel current ai depth b.
Proof.
  revert current ai depth b.
  induction fuel as [| fuel IH]; intros current ai depth b Hlen; [reflexivity |].
  destruct (nine_cells b Hlen) as (c0 & c1 & c2 & c3 & c4 & c5 & c6 & c7 & c8 & ->).
  cbn [fast_value value pack]. rewrite fast_step_eq.
  apply value_step_ext; [reflexivity |].
  intros i _. apply IH. rewrite length_insert. reflexivity.
Qed.

Lemma pure_scores_ext (val1 val2 : player -> player -> Z -> Board -> number)
    (p : player) (b : Board) :
  length b = 9%nat ->
  (forall c a d b', length b' = 9%nat -> val1 c a d b' = val2 c a d b') ->
  pure_scores val1 p b = pure_scores val2 p b.
Proof.
  intros Hlen Hval. unfold pure_scores.
  apply fold_left_ext_in. intros vars i _. unfold score_cell.
  destruct (truthy (b !! i)); [reflexivity |].
  rewrite Hval by (rewrite length_insert; exact Hlen). reflexivity.
Qed.

Lemma top_cells_fast (p : player) (b : Board) :
  length b = 9%nat ->
  top_cells (value search_fuel) p b = top_cells fast_val p b.
Proof.
  intros Hlen. unfold top_cells.
  rewrite (pure_scores_ext (value search_fuel) fast_val p b Hlen); [reflexivity |].
  intros c a d b' Hb'. symmetry. apply fast_value_correct, Hb'.
Qed.

(** ** Families of boards *)

Lemma In_boards (b : Board) : In b (boards (length b)).
Proof.
  induction b as [| v rest IH]; cbn [boards length]; [left; reflexivity |].
  apply in_flat_map. exists rest. split; [exact IH |].
  destruct v as [[] |]; simpl; auto.
Qed.

Lemma takes_sole_win_table :
  forallb (fun b => takes_sole_win fast_val b X && takes_sole_win fast_val b O) (boards 9) = true.
Proof. vm_cast_no_check (eq_refl true). Qed.

Lemma blocks_sole_threat_table :
  forallb (fun b => blocks_sole_threat fast_val b X && blocks_sole_threat fast_val b O)
    (boards 9) = true.
Proof. vm_cast_no_check (eq_refl true). Qed.

Lemma always_draw_table :
  always_draw fast_val 9 (replicate 9 None) true
  && always_draw fast_val 9 (replicate 9 None) false = true.
Proof. vm_cast_no_check (eq_refl true). Qed.

(** ** A single immediate win, a single threat *)

Lemma sole_cell (l : list nat) (i : nat) :
  List.NoDup l -> In i l -> (forall j, In j l -> j = i) -> l = [i].
Proof.
  intros Hnd Hi Hall. destruct l as [| a [| a' l]].
  - destruct Hi.
  - rewrite (Hall a) by (left; reflexivity). reflexivity.
  - exfalso. apply List.NoDup_cons_iff in Hnd as [Hna _]. apply Hna.
    rewrite (Hall a) by (left; reflexivity).
    rewrite (Hall a') by (right; left; reflexivity). left. reflexivity.
Qed.

Lemma sole_winning_cell (b : Board) (p : player) (i : nat) :
  wins_at b p i -> (forall j, wins_at b p j -> j = i) -> winning_cells b p = [i].
Proof.
  intros Hi Hall. apply sole_cell.
  - apply NoDup_winning_cells.
  - apply In_winning_cells, Hi.
  - intros j Hj. apply Hall, In_winning_cells, Hj.
Qed.

Lemma no_winning_cell (b : Board) (p : player) :
  (forall i, ~ wins_at b p i) -> winning_cells b p = [].
Proof.
  intros H. destruct (winning_cells b p) as [| i rest] eqn:Hw; [reflexivity |].
  exfalso. apply (H i), In_winning_cells. rewrite Hw. left. reflexivity.
Qed.

Lemma sole_top_cell_played (u : Q) (p : player) (b : Board) (w : nat) :
  length b = 9%nat -> unit_draw u ->
  sole_top_cell fast_val p b w = true ->
  bestMoveFor u p b = Returns (Some w) b.
Proof.
  intros Hlen Hu Hsole. unfold sole_top_cell in Hsole.
  rewrite <- (top_cells_fast p b Hlen) in Hsole.
  pose proof (bestMoveFor_top_cells u p b Hlen Hu) as Hbest.
  destruct (top_cells (value search_fuel) p b) as [| i [| i' rest]]; try discriminate.
  apply Nat.eqb_eq in Hsole as ->.
  destruct Hbest as (j & [<- | []] & Hret). exact Hret.
Qed.

Lemma table_lookup (check : Board -> bool) (b : Board) :
  forallb check (boards 9) = true -> length b = 9%nat -> check b = true.
Proof.
  intros Htable Hlen. rewrite forallb_forall in Htable. apply Htable.
  rewrite <- Hlen. apply In_boards.
Qed.

Lemma sole_win_played (b : Board) (p : player) (i : nat) (u : Q) :
  length b = 9%nat -> unit_draw u ->
  wins_at b p i -> (forall j, wins_at b p j -> j = i) ->
  mediumMove u p b = Returns (Some i) b /\ bestMoveFor u p b = Returns (Some i) b.
Proof.
  intros Hlen Hu Hi Hall.
  pose proof (sole_winning_cell b p i Hi Hall) as Hcells. split.
  - rewrite mediumMove_unfold, Hcells. reflexivity.
  - apply sole_top_cell_played; [exact Hlen | exact Hu |].
    pose proof (table_lookup _ b takes_sole_win_table Hlen) as Htab.
    apply andb_true_iff in Htab as [HX HO].
    destruct p; [clear HO; rename HX into H | clear HX; rename HO into H];
      unfold takes_sole_win in H; rewrite Hcells in H; exact H.
Qed.

(** C3. If exactly one empty cell, filled with the acting player's mark,
    makes [calculateWinner] report the acting player, then [mediumMove] and
    [bestMoveFor] both return that cell, whatever the random draw; on
    [[X,X,_,O,O,_,_,_,_]] with X to move, [bestMoveFor] returns index 2. *)
Theorem single_winning_move_is_played :
  (forall (b : Board) (p : player) (i : nat) (u : Q),
      length b = 9%nat -> unit_draw u ->
      wins_at b p i -> (forall j, wins_at b p j -> j = i) ->
      mediumMove u p b = Returns (Some i) b /\ bestMoveFor u p b = Returns (Some i) b)
  /\ (forall u : Q,
         unit_draw u ->
         bestMoveFor u X [Some X; Some X; None; Some O; Some O; None; None; None; None]
         = Returns (Some 2%nat) [Some X; Some X; None; Some O; Some O; None; None; None; None]).
Proof.
  split; [exact sole_win_played |].
  intros u Hu. apply sole_win_played; [reflexivity | exact Hu | split; reflexivity |].
  intros j Hj. apply In_winning_cells in Hj. vm_compute in Hj.
  destruct Hj as [<- | []]. reflexivity.
Qed.

Lemma single_winning_move_is_played_witness :
  mediumMove (1 # 2) O [Some X; Some X; None; Some O; Some O; None; Some X; None; None]
  = Returns (Some 5%nat) [Some X; Some X; None; Some O; Some O; None; Some X; None; None]
  /\ bestMoveFor (1 # 2) O [Some X; Some X; None; Some O; Some O; None; Some X; None; None]
     = Returns (Some 5%nat) [Some X; Some X; None; Some O; Some O; None; Some X; None; None].
Proof.
  apply (proj1 single_winning_move_is_played
           [Some X; Some X; None; Some O; Some O; None; Some X; None; None] O 5%nat (1 # 2)).
  - reflexivity.
  - literal_draw.
  - split; reflexivity.
  - intros j Hj. apply In_winning_cells in Hj. vm_compute in Hj.
    destruct Hj as [<- | []]. reflexivity.
Defined.

(** C4, as stated, fails for [bestMoveFor]: on [[O,O,_,O,X,X,_,X,_]] with X
    to move, X has no immediate winning move and O has two (cells 2 and 6);
    every move of X then loses at the same depth, all three empty cells score
    -9, and the draw 2/3 selects cell 8, which is not a winning cell of O. *)
Lemma bestMoveFor_may_not_block :
  length [Some O; Some O; None; Some O; Some X; Some X; None; Some X; None] = 9%nat
  /\ unit_draw (2 # 3)
  /\ (forall i, ~ wins_at [Some O; Some O; None; Some O; Some X; Some X; None; Some X; None] X i)
  /\ wins_at [Some O; Some O; None; Some O; Some X; Some X; None; Some X; None] O 2
  /\ bestMoveFor (2 # 3) X [Some O; Some O; None; Some O; Some X; Some X; None; Some X; None]
     = Returns (Some 8%nat) [Some O; Some O; None; Some O; Some X; Some X; None; Some X; None]
  /\ ~ wins_at [Some O; Some O; None; Some O; Some X; Some X; None; Some X; None] O 8.
Proof.
  split; [reflexivity |]. split; [literal_draw |]. split; [| split; [| split]].
  - intros i Hi. apply In_winning_cells in Hi. vm_compute in Hi. exact Hi.
  - split; reflexivity.
  - vm_compute. reflexivity.
  - intros [_ H]. vm_compute in H. discriminate.
Qed.

(** C4, amended. When the acting player has no immediate winning move and
    the opponent has one, [mediumMove] returns an immediate winning cell of
    the opponent, whatever the draw; [bestMoveFor] returns the opponent's
    immediate winning cell when the opponent has exactly one. *)
Theorem opponent_threat_is_blocked (b : Board) (p : player) (u : Q) :
  length b = 9%nat -> unit_draw u ->
  (forall i, ~ wins_at b p i) ->
  ((exists c, wins_at b (opponent p) c) ->
   exists c, wins_at b (opponent p) c /\ mediumMove u p b = Returns (Some c) b)
  /\ (forall c, wins_at b (opponent p) c ->
                (forall j, wins_at b (opponent p) j -> j = c) ->
                bestMoveFor u p b = Returns (Some c) b).
Proof.
  intros Hlen Hu Hnowin. pose proof (no_winning_cell b p Hnowin) as Hmine. split.
  - intros [c Hc]. rewrite mediumMove_unfold, Hmine. cbn [head].
    destruct (head (winning_cells b (opponent p))) as [k |] eqn:Hk.
    + exists k. split; [apply head_winning_cells_Some, Hk | reflexivity].
    + exfalso. rewrite head_winning_cells_None in Hk. exact (Hk c Hc).
  - intros c Hc Hall. pose proof (sole_winning_cell b (opponent p) c Hc Hall) as Htheirs.
    apply sole_top_cell_played; [exact Hlen | exact Hu |].
    pose proof (table_lookup _ b blocks_sole_threat_table Hlen) as Htab.
    apply andb_true_iff in Htab as [HX HO].
    destruct p; [clear HO; rename HX into H | clear HX; rename HO into H];
      unfold blocks_sole_threat in H; rewrite Hmine, Htheirs in H; exact H.
Qed.

Lemma opponent_threat_is_blocked_witness :
  (exists c, wins_at [Some X; Some X; None; None; Some O; None; None; None; None] X c
             /\ mediumMove (1 # 2) O [Some X; Some X; None; None; Some O; None; None; None; None]
                = Returns (Some c) [Some X; Some X; None; None; Some O; None; None; None; None])
  /\ bestMoveFor (1 # 2) O [Some X; Some X; None; None; Some O; None; None; None; None]
     = Returns (Some 2%nat) [Some X; Some X; None; None; Some O; None; None; None; None].
Proof.
  destruct (opponent_threat_is_blocked
              [Some X; Some X; None; None; Some O; None; None; None; None] O (1 # 2))
    as [Hmedium Hhard].
  - reflexivity.
  - literal_draw.
  - intros i Hi. apply In_winning_cells in Hi. vm_compute in Hi. exact Hi.
  - split.
    + apply Hmedium. exists 2%nat. split; reflexivity.
    + apply Hhard; [split; reflexivity |].
      intros j Hj. apply In_winning_cells in Hj. vm_compute in Hj.
      destruct Hj as [<- | []]. reflexivity.
Defined.

(** ** Self-play at hard difficulty *)

Lemma always_draw_sound (turns : nat) (us : nat -> Q) (k : nat) (b : Board) (xnext : bool) :
  (forall n, unit_draw (us n)) ->
  length b = 9%nat ->
  always_draw fast_val turns b xnext = true ->
  exists final,
    autoplay turns both_hard us k {| board := b; xIsNext := xnext |} = Some final
    /\ winner (calculateWinner (board final)) = None
    /\ isBoardFull (board final) = true.
Proof.
  intros Hus. revert k b xnext.
  induction turns as [| turns IH]; intros k b xnext Hlen Hcheck.
  - cbn [always_draw autoplay board] in *.
    destruct (gameOver b); [| discriminate].
    apply andb_true_iff in Hcheck as [Hw Hfull].
    exists {| board := b; xIsNext := xnext |}. split; [reflexivity |].
    split; [| exact Hfull]. cbn [board].
    destruct (winner (calculateWinner b)); [discriminate | reflexivity].
  - cbn [always_draw autoplay board] in *.
    destruct (gameOver b).
    { apply andb_true_iff in Hcheck as [Hw Hfull].
      exists {| board := b; xIsNext := xnext |}. split; [reflexivity |].
      split; [| exact Hfull]. cbn [board].
      destruct (winner (calculateWinner b)); [discriminate | reflexivity]. }
    set (current := if xnext then X else O) in *.
    assert (Hturn : ai_turn both_hard (us k) {| board := b; xIsNext := xnext |}
                    = match bestMoveFor (us k) current b with
                      | Returns (Some move) b' =>
                          Some {| board := <[move := Some current]> b'; xIsNext := negb xnext |}
                      | Returns None _ => Some {| board := b; xIsNext := negb xnext |}
                      | _ => None
                      end).
    { unfold ai_turn, both_hard, current. cbn. destruct xnext; reflexivity. }
    rewrite Hturn. clear Hturn.
    rewrite <- (top_cells_fast current b Hlen) in Hcheck.
    pose proof (bestMoveFor_top_cells (us k) current b Hlen (Hus k)) as Hbest.
    destruct (top_cells (value search_fuel) current b) as [| t0 top]; [discriminate |].
    destruct Hbest as (i & Hi & ->).
    rewrite forallb_forall in Hcheck.
    apply IH; [rewrite length_insert; exact Hlen | apply Hcheck, Hi].
Qed.

(** C1. Every play-out from the all-empty 9-cell board in which both sides
    play the index returned by [bestMoveFor], whichever side starts and
    whatever the random draws, ends within nine turns with no winner reported
    by [calculateWinner] and the board full: a draw. *)
Theorem hard_self_play_ends_in_draw (us : nat -> Q) (starter : bool) :
  (forall n, unit_draw (us n)) ->
  exists final,
    autoplay 9 both_hard us 0 {| board := replicate 9 None; xIsNext := starter |} = Some final
    /\ winner (calculateWinner (board final)) = None
    /\ isBoardFull (board final) = true.
Proof.
  intros Hus. apply always_draw_sound; [exact Hus | reflexivity |].
  pose proof always_draw_table as Htab. apply andb_true_iff in Htab as [HX HO].
  destruct starter; assumption.
Qed.

Lemma hard_self_play_ends_in_draw_witness :
  exists final,
    autoplay 9 both_hard (fun n => if Nat.even n then 1 # 3 else 3 # 4) 0 new_game = Some final
    /\ winner (calculateWinner (board final)) = None
    /\ isBoardFull (board final) = true.
Proof.
  apply (hard_self_play_ends_in_draw (fun n => if Nat.even n then 1 # 3 else 3 # 4) true).
  intros n. destruct (Nat.even n); literal_draw.
Defined.

(** * Further properties of the engine *)

(** ** isBoardFull and empties *)

Lemma empties_from_nil (k : nat) (b : Board) :
  empties_from k b = [] <-> isBoardFull b = true.
Proof.
  revert k. induction b as [| v rest IH]; intros k; cbn [empties_from isBoardFull forallb].
  - split; reflexivity.
  - destruct v as [q |]; cbn [truthy].
    + rewrite IH. reflexivity.
    + split; discriminate.
Qed.

Lemma length_empties_from (k : nat) (b : Board) : length (empties_from k b) = blanks b.
Proof.
  revert k. induction b as [| v rest IH]; intros k; cbn [empties_from blanks]; [reflexivity |].
  destruct v as [q |]; cbn [truthy length]; rewrite IH; reflexivity.
Qed.

(** X1. [isBoardFull] is true exactly when [empties()] finds no cell, and
    exactly when no cell of the board is [null]; the number of cells
    [empties()] lists is the number of empty cells. *)
Theorem isBoardFull_iff_no_empties (b : Board) :
  (isBoardFull b = true <-> empties b = [])
  /\ (isBoardFull b = true <-> forall i, b !! i <> Some None)
  /\ length (empties b) = blanks b.
Proof.
  split; [| split].
  - symmetry. apply empties_from_nil.
  - rewrite <- empties_nil. symmetry. apply empties_from_nil.
  - apply length_empties_from.
Qed.

(** ** minimax is zero-sum *)

Lemma Math_max_opp (a s : number) :
  Math_min (number_opp a) (number_opp s) = number_opp (Math_max a s).
Proof. destruct a, s; simpl; try reflexivity. f_equal. lia. Qed.

Lemma Math_min_opp (a s : number) :
  Math_max (number_opp a) (number_opp s) = number_opp (Math_min a s).
Proof. destruct a, s; simpl; try reflexivity. f_equal. lia. Qed.

Lemma player_eqb_opponent (w ai : player) :
  player_eqb w (opponent ai) = negb (player_eqb w ai).
Proof. destruct w, ai; reflexivity. Qed.

Lemma fold_left_related {A B} (R : A -> A -> Prop) (f g : A -> B -> A) (l : list B) (a a' : A) :
  (forall x y i, R x y -> R (f x i) (g y i)) ->
  R a a' -> R (fold_left f l a) (fold_left g l a').
Proof.
  intros Hstep. revert a a'. induction l as [| i l IH]; intros a a' Ha; [exact Ha |].
  cbn [fold_left]. apply IH, Hstep, Ha.
Qed.

Lemma value_opp (fuel : nat) (current ai : player) (depth : Z) (b : Board) :
  value fuel current (opponent ai) depth b = number_opp (value fuel current ai depth b).
Proof.
  revert current ai depth b.
  induction fuel as [| fuel IH]; intros current ai depth b; [reflexivity |].
  cbn [value]. unfold value_step.
  destruct (winner (calculateWinner b)) as [w |].
  { rewrite player_eqb_opponent. destruct (player_eqb w ai); simpl; f_equal; lia. }
  destruct (isBoardFull b); [reflexivity |].
  rewrite player_eqb_opponent.
  apply (fold_left_related (fun x y => y = number_opp x)).
  - intros x y i ->. unfold consider. destruct (truthy (b !! i)); [reflexivity |].
    rewrite IH. destruct (player_eqb current ai); cbn [negb].
    + apply Math_max_opp.
    + apply Math_min_opp.
  - destruct (player_eqb current ai); reflexivity.
Qed.

(** X2. [minimax] is zero-sum: on the same position, with the same side to
    move and the same depth, the value for one perspective is the negation of
    the value for the other. *)
Theorem minimax_zero_sum (b : Board) (current ai : player) (depth : Z) :
  length b = 9%nat ->
  exists v,
    minimax current ai depth b = Returns (Int v) b
    /\ minimax current (opponent ai) depth b = Returns (Int (- v)) b.
Proof.
  intros Hlen. destruct (minimax_returns b current ai depth Hlen) as [v Hv].
  exists v. split; [exact Hv |].
  pose proof (minimax_value b current ai depth Hlen) as Hval. rewrite Hv in Hval.
  assert (E : value search_fuel current ai depth b = Int v) by congruence.
  rewrite (minimax_value b current (opponent ai) depth Hlen), value_opp, E. reflexivity.
Qed.

Lemma minimax_zero_sum_witness :
  exists v,
    minimax O X 2 [Some X; None; None; None; Some O; None; None; None; Some X]
    = Returns (Int v) [Some X; None; None; None; Some O; None; None; None; Some X]
    /\ minimax O O 2 [Some X; None; None; None; Some O; None; None; None; Some X]
       = Returns (Int (- v)) [Some X; None; None; None; Some O; None; None; None; Some X].
Proof.
  apply (minimax_zero_sum [Some X; None; None; None; Some O; None; None; None; Some X] O X 2).
  reflexivity.
Defined.

(** ** The range of the scores *)

Lemma fold_left_invariant {A B} (P : A -> Prop) (f : A -> B -> A) (l : list B) (a : A) :
  (forall x i, In i l -> P x -> P (f x i)) -> P a -> P (fold_left f l a).
Proof.
  revert a. induction l as [| i l IH]; intros a Hstep Ha; [exact Ha |].
  cbn [fold_left]. apply IH.
  - intros x j Hj. apply Hstep. right. exact Hj.
  - apply Hstep; [left; reflexivity | exact Ha].
Qed.

(** At depth [d], with at most [10 - d] empty cells, the value lies between
    [d - 10] and [10 - d]; on a position that is not terminal, between
    [d - 9] and [9 - d]. *)
Lemma value_bounds (fuel : nat) (b : Board) (current ai : player) (depth : Z) :
  length b = 9%nat -> (blanks b < fuel)%nat ->
  depth + Z.of_nat (blanks b) <= 10 ->
  exists z,
    value fuel current ai depth b = Int z
    /\ depth - 10 <= z <= 10 - depth
    /\ (winner (calculateWinner b) = None -> isBoardFull b = false ->
        depth - 9 <= z <= 9 - depth).
Proof.
  revert b current ai depth.
  induction fuel as [| fuel IH]; intros b current ai depth Hlen Hfuel Hdepth; [lia |].
  destruct (minimax_rec_returns (S fuel) b current ai depth Hlen Hfuel) as [z Hz].
  rewrite (minimax_rec_value (S fuel) b current ai depth Hlen Hfuel) in Hz.
  assert (Ez : value (S fuel) current ai depth b = Int z) by congruence. clear Hz.
  exists z. split; [exact Ez |].
  cbn [value] in Ez. unfold value_step in Ez.
  destruct (winner (calculateWinner b)) as [w |].
  { split; [| discriminate]. destruct (player_eqb w ai); injection Ez as <-; lia. }
  destruct (isBoardFull b).
  { split; [| discriminate]. injection Ez as <-. lia. }
  assert (Hin : depth - 9 <= z <= 9 - depth); [| split; [lia | intros _ _; exact Hin]].
  set (start := if player_eqb current ai then NegInfinity else Infinity) in Ez.
  assert (Hinv : fold_left
                   (fun best i =>
                      consider (player_eqb current ai) (b !! i) best
                        (fun _ => value fuel (opponent current) ai (depth + 1)
                                    (<[i := Some current]> b)))
                   (seq 0 9) start = start
                 \/ exists z', fold_left
                     (fun best i =>
                        consider (player_eqb current ai) (b !! i) best
                          (fun _ => value fuel (opponent current) ai (depth + 1)
                                      (<[i := Some current]> b)))
                     (seq 0 9) start = Int z' /\ depth - 9 <= z' <= 9 - depth).
  { apply (fold_left_invariant
             (fun best => best = start \/ exists z', best = Int z' /\ depth - 9 <= z' <= 9 - depth)).
    - intros best i Hi Hbest. unfold consider.
      destruct (truthy (b !! i)) eqn:Ht; [exact Hbest |].
      apply falsy_cell_is_null in Ht; [| apply in_seq in Hi; lia].
      pose proof (blanks_place b i current Ht) as Hbl.
      destruct (IH (<[i := Some current]> b) (opponent current) ai (depth + 1))
        as (s & -> & Hs & _); [rewrite length_insert; exact Hlen | lia | lia |].
      right. unfold start in *.
      destruct (player_eqb current ai), Hbest as [-> | (z' & -> & Hz')]; simpl;
        eexists; (split; [reflexivity | lia]).
    - left. reflexivity. }
  rewrite Ez in Hinv. destruct Hinv as [Hstart | (z' & [= <-] & Hz')]; [| exact Hz'].
  unfold start in Hstart. destruct (player_eqb current ai); discriminate.
Qed.

(** What the score of a move tells. *)
Lemma move_score_extremes (b : Board) (p : player) (i : nat) (s : number) :
  length b = 9%nat -> b !! i = Some None -> move_score b p i s ->
  exists v,
    s = Int v /\ -10 <= v <= 10
    /\ (v = 10 <-> wins_at b p i)
    /\ (v = -10 <-> winner (calculateWinner (<[i := Some p]> b)) = Some (opponent p)).
Proof.
  intros Hlen Hi Hscore. unfold move_score in Hscore.
  assert (Hlen' : length (<[i := Some p]> b) = 9%nat) by (rewrite length_insert; exact Hlen).
  rewrite (minimax_value _ (opponent p) p 0 Hlen') in Hscore.
  pose proof (blanks_place b i p Hi) as Hbl. pose proof (blanks_le_length b) as Hle.
  destruct (value_bounds search_fuel (<[i := Some p]> b) (opponent p) p 0 Hlen')
    as (v & Ev & Hv & Hinner); [unfold search_fuel; lia | lia |].
  assert (s = Int v) as -> by congruence. clear Hscore.
  exists v. split; [reflexivity |]. split; [lia |].
  unfold wins_at. unfold search_fuel in Ev. cbn [value] in Ev. unfold value_step in Ev.
  destruct (winner (calculateWinner (<[i := Some p]> b))) as [w |] eqn:Hw.
  - destruct (player_eqb w p) eqn:Hwp; injection Ev as <-.
    + assert (w = p) as -> by (destruct w, p; (reflexivity || discriminate)).
      split; split; try (intros _; auto; fail); try lia.
      * intros [= H]. destruct p; discriminate.
    + assert (w = opponent p) as -> by (destruct w, p; (reflexivity || discriminate)).
      split; split; try (intros _; reflexivity); try lia.
      * intros [_ [= H]]. destruct p; discriminate.
  - destruct (isBoardFull (<[i := Some p]> b)) eqn:Hfull.
    + injection Ev as <-. split; split; try lia; try discriminate.
      intros [_ H]. discriminate.
    + specialize (Hinner eq_refl eq_refl). split; split; try lia; try discriminate.
      intros [_ H]. discriminate.
Qed.

(** X3. The score [bestMoveFor] gives to an empty cell is an integer
    between -10 and 10; it is 10 exactly when the move wins at once, and -10
    exactly when [calculateWinner] reports the opponent after the move. *)
Theorem move_score_range (b : Board) (p : player) (i : nat) (s : number) :
  length b = 9%nat -> b !! i = Some None -> move_score b p i s ->
  exists v,
    s = Int v /\ -10 <= v <= 10
    /\ (v = 10 <-> wins_at b p i)
    /\ (v = -10 <-> winner (calculateWinner (<[i := Some p]> b)) = Some (opponent p)).
Proof. apply move_score_extremes. Qed.

Lemma move_score_range_witness :
  exists v,
    Int 10 = Int v /\ -10 <= v <= 10
    /\ (v = 10 <-> wins_at [Some X; Some X; None; Some O; Some O; None; None; None; None] X 2)
    /\ (v = -10 <->
        winner (calculateWinner
                  (<[2%nat := Some X]> [Some X; Some X; None; Some O; Some O; None; None; None; None]))
        = Some (opponent X)).
Proof.
  apply (move_score_range [Some X; Some X; None; Some O; Some O; None; None; None; None] X 2).
  - reflexivity.
  - reflexivity.
  - reflexivity.
Defined.

(** X4. Whenever the player has an immediate winning move, however many,
    [bestMoveFor] returns one of them, whatever the random draw. *)
Theorem bestMoveFor_takes_immediate_win (b : Board) (p : player) (u : Q) :
  length b = 9%nat -> unit_draw u ->
  (exists j, wins_at b p j) ->
  exists i, bestMoveFor u p b = Returns (Some i) b /\ wins_at b p i.
Proof.
  intros Hlen Hu [j Hj]. pose proof Hj as [Hjnull _].
  destruct (bestMoveFor_spec u p b Hlen Hu) as [[Hnone _] | (i & s & Hret & Hi & Hscore & Hmax)].
  { exfalso. exact (Hnone j Hjnull). }
  exists i. split; [exact Hret |].
  destruct (Hmax j Hjnull) as (sj & Hsj & Hle).
  destruct (move_score_extremes b p j (Int sj) Hlen Hjnull Hsj) as (vj & [= <-] & _ & Hten & _).
  destruct (move_score_extremes b p i (Int s) Hlen Hi Hscore) as (v & [= <-] & Hv & Hwin & _).
  apply Hwin. apply Hten in Hj. lia.
Qed.

Lemma bestMoveFor_takes_immediate_win_witness :
  exists i,
    bestMoveFor (3 # 4) X [Some X; Some X; None; Some X; Some O; Some O; None; Some O; None]
    = Returns (Some i) [Some X; Some X; None; Some X; Some O; Some O; None; Some O; None]
    /\ wins_at [Some X; Some X; None; Some X; Some O; Some O; None; Some O; None] X i.
Proof.
  apply (bestMoveFor_takes_immediate_win
           [Some X; Some X; None; Some X; Some O; Some O; None; Some O; None] X (3 # 4)).
  - reflexivity.
  - literal_draw.
  - exists 2%nat. split; reflexivity.
Defined.

(** ** findWinningMove, randomMove and the tie-break of bestMoveFor *)

Lemma empties_from_ge (k : nat) (b : Board) (j : nat) :
  In j (empties_from k b) -> (k <= j)%nat.
Proof. rewrite In_empties_from. intros (i & -> & _). lia. Qed.

Lemma head_filter_empties_first (f : nat -> bool) (k : nat) (b : Board) (i j : nat) :
  head (List.filter f (empties_from k b)) = Some i ->
  In j (empties_from k b) -> f j = true -> (i <= j)%nat.
Proof.
  revert k. induction b as [| v rest IH]; intros k; cbn [empties_from].
  - intros _ [].
  - destruct v as [q |]; cbn [truthy]; [apply IH |].
    cbn [List.filter]. destruct (f k) eqn:Hfk.
    + intros [= <-] Hj _. apply (empties_from_ge k (None :: rest)).
      cbn [empties_from truthy]. exact Hj.
    + intros Hhead [<- | Hj] Hfj; [congruence |]. exact (IH (S k) Hhead Hj Hfj).
Qed.

(** X5. [findWinningMove] returns the lowest-indexed immediate winning cell
    of the player, and [null] exactly when there is none; the array is handed
    back as it was. *)
Theorem findWinningMove_lowest (b : Board) (pl : player) :
  exists r,
    findWinningMove pl b = Returns r b
    /\ (forall i, r = Some i ->
                  wins_at b pl i /\ forall j, wins_at b pl j -> (i <= j)%nat)
    /\ (r = None <-> forall j, ~ wins_at b pl j).
Proof.
  exists (head (winning_cells b pl)). split; [apply findWinningMove_spec |]. split.
  - intros i Hi. split; [apply head_winning_cells_Some, Hi |].
    intros j Hj. apply In_winning_cells in Hj. unfold winning_cells in Hi, Hj.
    apply filter_In in Hj as [Hj Hfj].
    exact (head_filter_empties_first _ 0 b i j Hi Hj Hfj).
  - apply head_winning_cells_None.
Qed.

Lemma findWinningMove_lowest_witness :
  exists r,
    findWinningMove X [Some X; None; None; None; Some X; None; Some X; None; None]
    = Returns r [Some X; None; None; None; Some X; None; Some X; None; None]
    /\ r = Some 2%nat.
Proof.
  destruct (findWinningMove_lowest
              [Some X; None; None; None; Some X; None; Some X; None; None] X)
    as (r & Hret & Hsome & _).
  exists r. split; [exact Hret |].
  vm_compute in Hret. congruence.
Defined.

(** X6. [randomMove] returns [null] exactly when no cell is empty, and every
    empty cell is returned for some value of [Math.random()]. *)
Theorem randomMove_reaches_every_empty_cell (b : Board) :
  (forall u, unit_draw u ->
             (randomMove u b = Returns None b <-> forall i, b !! i <> Some None))
  /\ (forall i, b !! i = Some None ->
                exists u, unit_draw u /\ randomMove u b = Returns (Some i) b).
Proof.
  split.
  - intros u Hu. destruct (randomMove_spec u b Hu) as [[He Hret] | (i & _ & Hi & Hret)].
    + split; [intros _; exact (proj1 (empties_nil b) He) | intros _; exact Hret].
    + split; [rewrite Hret; discriminate | intros H; exfalso; exact (H i Hi)].
  - intros i Hi. apply In_empties, list_elem_of_In, list_elem_of_lookup in Hi as [k Hk].
    destruct (random_index_hits (length (empties b)) k) as (u & Hu & Hidx).
    { apply lookup_lt_Some in Hk. exact Hk. }
    exists u. split; [exact Hu |]. rewrite randomMove_unfold.
    destruct (empties b) as [| e0 es] eqn:He; [discriminate |].
    rewrite Hidx, Hk. reflexivity.
Qed.

Lemma randomMove_reaches_every_empty_cell_witness :
  exists u, unit_draw u
            /\ randomMove u [Some X; None; None; None; Some O; None; None; None; None]
               = Returns (Some 5%nat) [Some X; None; None; None; Some O; None; None; None; None].
Proof.
  apply (proj2 (randomMove_reaches_every_empty_cell
                  [Some X; None; None; None; Some O; None; None; None; None]) 5%nat).
  reflexivity.
Defined.

(** X7. The tie-break of [bestMoveFor] reaches every best move: an empty
    cell whose score is maximal among the empty cells is returned for some
    value of [Math.random()]. *)
Theorem bestMoveFor_reaches_every_best_move (b : Board) (p : player) (i : nat) (s : Z) :
  length b = 9%nat ->
  b !! i = Some None ->
  move_score b p i (Int s) ->
  (forall j sj, b !! j = Some None -> move_score b p j (Int sj) -> sj <= s) ->
  exists u, unit_draw u /\ bestMoveFor u p b = Returns (Some i) b.
Proof.
  intros Hlen Hi Hscore Hmax.
  destruct (score_moves_scored b p Hlen) as ([bs sm] & Hsc & Hidx & Hall & Hnil & Hcons).
  assert (Hin : In i (map idx sm)).
  { rewrite Hidx. apply In_blank_cells; assumption. }
  apply in_map_iff in Hin as (m & Hm_idx & Hm).
  destruct (Hall m Hm) as (_ & Hm_score & Hm_le). rewrite Hm_idx in Hm_score.
  pose proof (move_score_functional _ _ _ _ _ Hscore Hm_score) as Hs.
  destruct Hcons as (mtop & Hmtop & Htop_sc); [intros ->; destruct Hm |].
  destruct (Hall mtop Hmtop) as ([st Hst] & Htop_score & _).
  assert (Hbs : bs = Int s).
  { rewrite <- Htop_sc, Hst. f_equal.
    rewrite <- Hs, <- Htop_sc, Hst in Hm_le. apply number_gtb_int in Hm_le.
    rewrite Hst in Htop_score.
    assert (Hblank : b !! idx mtop = Some None).
    { apply (In_blank_cells b _ Hlen). rewrite <- Hidx. apply in_map, Hmtop. }
    pose proof (Hmax _ _ Hblank Htop_score). lia. }
  assert (Htop : In m (top_of bs sm)).
  { apply filter_In. split; [exact Hm |]. apply number_eqb_eq. congruence. }
  apply list_elem_of_In, list_elem_of_lookup in Htop as [k Hk].
  destruct (random_index_hits (length (top_of bs sm)) k) as (u & Hu & Hidx_u).
  { apply lookup_lt_Some in Hk. exact Hk. }
  exists u. split; [exact Hu |]. rewrite bestMoveFor_unfold, Hsc.
  assert (Hpos : (length (top_of bs sm) =? 0)%nat = false).
  { apply Nat.eqb_neq. apply lookup_lt_Some in Hk. lia. }
  rewrite Hpos. unfold random_pick. rewrite Hidx_u, Hk.
  unfold ret. rewrite Hm_idx. reflexivity.
Qed.

Lemma bestMoveFor_reaches_every_best_move_witness :
  exists u, unit_draw u
            /\ bestMoveFor u X [Some O; Some O; None; Some O; Some X; Some X; None; Some X; None]
               = Returns (Some 6%nat)
                   [Some O; Some O; None; Some O; Some X; Some X; None; Some X; None].
Proof.
  apply (bestMoveFor_reaches_every_best_move
           [Some O; Some O; None; Some O; Some X; Some X; None; Some X; None] X 6 (-9)).
  - reflexivity.
  - reflexivity.
  - reflexivity.
  - intros j sj Hj Hsj.
    destruct j as [| [| [| [| [| [| [| [| [| j]]]]]]]]]; try discriminate;
      vm_compute in Hsj; injection Hsj as <-; lia.
Defined.

(** * Properties of the game around the engine *)

(** ** Every difficulty moves while a cell is empty *)

Lemma not_gameOver_blank (b : Board) :
  gameOver b = false -> exists j, b !! j = Some None.
Proof.
  unfold gameOver. intros H. apply orb_false_iff in H as [_ Hfull].
  apply isBoardFull_false, Hfull.
Qed.

Lemma mediumMove_moves (b : Board) (pl : player) (u : Q) :
  unit_draw u -> (exists j, b !! j = Some None) ->
  exists i, mediumMove u pl b = Returns (Some i) b /\ b !! i = Some None.
Proof.
  intros Hu [j Hj]. rewrite mediumMove_unfold.
  destruct (head (winning_cells b pl)) as [w |] eqn:Hw.
  { exists w. split; [reflexivity |]. apply head_winning_cells_Some in Hw as [Hw _]. exact Hw. }
  destruct (head (winning_cells b (opponent pl))) as [k |] eqn:Hk.
  { exists k. split; [reflexivity |]. apply head_winning_cells_Some in Hk as [Hk _]. exact Hk. }
  destruct (is_null (b !! 4%nat)) eqn:Hcenter.
  { exists 4%nat. split; [reflexivity |]. apply is_null_true, Hcenter. }
  destruct (empty_corners b) as [| c0 cs] eqn:Hcorners.
  - destruct (randomMove_spec u b Hu) as [[He _] | (i & _ & Hi & Hret)].
    + exfalso. exact (proj1 (empties_nil b) He j Hj).
    + exists i. split; assumption.
  - rewrite <- Hcorners.
    destruct (uniform_choice_exists u (empty_corners b) Hu) as (c & Hc & Hin).
    { rewrite Hcorners. discriminate. }
    unfold uniform_choice in Hc. rewrite Hc. exists c. split; [reflexivity |].
    apply In_empty_corners in Hin as [_ Hnull]. exact Hnull.
Qed.

Lemma pickByDifficulty_moves (b : Board) (pl : player) (diff : difficulty) (u : Q) :
  length b = 9%nat -> unit_draw u -> (exists j, b !! j = Some None) ->
  exists i, pickByDifficulty u pl diff b = Returns (Some i) b /\ b !! i = Some None.
Proof.
  intros Hlen Hu [j Hj]. destruct diff; cbn [pickByDifficulty].
  - destruct (randomMove_spec u b Hu) as [[He _] | (i & _ & Hi & Hret)].
    + exfalso. exact (proj1 (empties_nil b) He j Hj).
    + exists i. split; assumption.
  - apply mediumMove_moves; [exact Hu | exists j; exact Hj].
  - destruct (bestMoveFor_spec u pl b Hlen Hu) as [[Hnone _] | (i & s & Hret & Hi & _)].
    + exfalso. exact (Hnone j Hj).
    + exists i. split; assumption.
Qed.

(** While the game is not over, an AI turn marks one empty cell for the side
    to move and passes the turn. *)
Lemma ai_turn_moves (cfg : Settings) (u : Q) (g : Game) :
  length (board g) = 9%nat -> unit_draw u -> gameOver (board g) = false ->
  exists i, board g !! i = Some None /\ ai_turn cfg u g = Some (after_move i g).
Proof.
  intros Hlen Hu Hover. unfold ai_turn.
  destruct (pickByDifficulty_moves (board g) (if xIsNext g then X else O)
              (if betEnabled cfg then easy
               else match (if xIsNext g then X else O) with
                    | X => difficultyX cfg
                    | O => difficultyO cfg
                    end) u Hlen Hu (not_gameOver_blank _ Hover)) as (i & Hret & Hi).
  exists i. split; [exact Hi |]. rewrite Hret. reflexivity.
Qed.

(** At hard difficulty the cell is one of the top cells. *)
Lemma ai_turn_hard (cfg : Settings) (u : Q) (g : Game) :
  length (board g) = 9%nat -> unit_draw u -> gameOver (board g) = false ->
  betEnabled cfg = false ->
  match mover g with X => difficultyX cfg | O => difficultyO cfg end = hard ->
  exists i, In i (top_cells fast_val (mover g) (board g))
            /\ board g !! i = Some None
            /\ ai_turn cfg u g = Some (after_move i g).
Proof.
  intros Hlen Hu Hover Hbet Hhard. unfold ai_turn, mover in *. rewrite Hbet, Hhard.
  cbn [pickByDifficulty].
  rewrite <- (top_cells_fast _ _ Hlen).
  pose proof (bestMoveFor_top_cells u (if xIsNext g then X else O) (board g) Hlen Hu) as Hbest.
  destruct (bestMoveFor_legal (board g) (if xIsNext g then X else O) u Hlen Hu)
    as (r & Hret & Hlegal).
  destruct (top_cells (value search_fuel) (if xIsNext g then X else O) (board g))
    as [| t0 top].
  - exfalso. destruct (not_gameOver_blank _ Hover) as [j Hj].
    destruct (bestMoveFor_spec u (if xIsNext g then X else O) (board g) Hlen Hu)
      as [[Hnone _] | (i & s & Hret' & _)]; [exact (Hnone j Hj) | congruence].
  - destruct Hbest as (i & Hi & Hret'). exists i. split; [exact Hi |].
    rewrite Hret' in Hret. injection Hret as <-.
    split; [apply (Hlegal i eq_refl) |]. rewrite Hret'. reflexivity.
Qed.

(** ** Every reaction is a legal step *)

Lemma after_move_keeps (i : nat) (g : Game) :
  board g !! i = Some None ->
  length (board (after_move i g)) = length (board g)
  /\ forall j m, board g !! j = Some (Some m) -> board (after_move i g) !! j = Some (Some m).
Proof.
  intros Hi. cbn [after_move board]. split; [apply length_insert |].
  intros j m Hj. rewrite list_lookup_insert_ne; [exact Hj |]. congruence.
Qed.

Lemma react_step (inp : Input) (g : Game) :
  length (board g) = 9%nat -> input_ok inp ->
  react inp g = Some g
  \/ (gameOver (board g) = false /\ in_showBet inp = false
      /\ exists i, board g !! i = Some None /\ react inp g = Some (after_move i g)).
Proof.
  intros Hlen Hok. unfold react, input_ok in *.
  destruct (in_event inp) as [i | u].
  - destruct (cell_disabled (in_auto inp) (in_showBet inp) i g); [left; reflexivity |].
    unfold handleClick.
    destruct (truthy (board g !! i)) eqn:Ht; [left; reflexivity |].
    destruct (gameOver (board g)) eqn:Hover; [left; reflexivity |].
    destruct (xIsNext g) eqn:Hx; cbn [negb orb]; [| left; reflexivity].
    destruct (in_showBet inp); [left; reflexivity |].
    right. split; [reflexivity |]. split; [reflexivity |]. exists i.
    apply falsy_cell_is_null in Ht; [| lia]. split; [exact Ht |].
    assert (Hi : (i <? length (board g))%nat = true) by (apply Nat.ltb_lt; lia).
    rewrite Hi. unfold after_move, mover. rewrite Hx. reflexivity.
  - unfold ai_effect.
    destruct (gameOver (board g)) eqn:Hover; [left; reflexivity |].
    destruct (negb (in_auto inp || negb (in_auto inp)
                    && player_eqb (if xIsNext g then X else O) O)); [left; reflexivity |].
    destruct (in_showBet inp); [left; reflexivity |]. cbn [orb].
    right. split; [reflexivity |]. split; [reflexivity |].
    apply ai_turn_moves; assumption.
Qed.

(** X8. Every reaction of the game to a click or to a run of the AI timer,
    in any mode and at any difficulty, returns; it either leaves the game as
    it is or marks exactly one empty cell for the side to move and passes the
    turn.  So the board keeps its nine cells, an occupied cell is never
    changed, and nothing changes once the game is over or while the betting
    overlay is shown. *)
Theorem reaction_is_legal_step (inp : Input) (g : Game) :
  length (board g) = 9%nat -> input_ok inp ->
  exists g',
    react inp g = Some g'
    /\ (g' = g \/ exists i, board g !! i = Some None /\ g' = after_move i g)
    /\ length (board g') = 9%nat
    /\ (forall j m, board g !! j = Some (Some m) -> board g' !! j = Some (Some m))
    /\ (gameOver (board g) = true \/ in_showBet inp = true -> g' = g).
Proof.
  intros Hlen Hok.
  destruct (react_step inp g Hlen Hok) as [Hsame | (Hover & Hshow & i & Hi & Hmove)].
  - exists g. split; [exact Hsame |]. split; [left; reflexivity |].
    split; [exact Hlen |]. split; [auto | auto].
  - exists (after_move i g). split; [exact Hmove |]. split; [right; eauto |].
    destruct (after_move_keeps i g Hi) as [Hl Hkeep].
    split; [congruence |]. split; [exact Hkeep |].
    intros [H | H]; congruence.
Qed.

Lemma reaction_is_legal_step_witness :
  exists g',
    react {| in_auto := false; in_showBet := false; in_cfg := both_hard; in_event := Click 4 |}
      new_game = Some g'
    /\ (g' = new_game \/ exists i, board new_game !! i = Some None /\ g' = after_move i new_game)
    /\ length (board g') = 9%nat
    /\ (forall j m, board new_game !! j = Some (Some m) -> board g' !! j = Some (Some m))
    /\ (gameOver (board new_game) = true \/ false = true -> g' = new_game).
Proof.
  apply (reaction_is_legal_step
           {| in_auto := false; in_showBet := false; in_cfg := both_hard; in_event := Click 4 |}
           new_game).
  - reflexivity.
  - unfold input_ok. cbn. lia.
Defined.

(** ** The hard side never loses *)

Lemma never_loses_table_X :
  never_loses fast_val X 9 (replicate 9 None) true
  && never_loses fast_val X 9 (replicate 9 None) false = true.
Proof. vm_cast_no_check (eq_refl true). Qed.

Lemma never_loses_table_O :
  never_loses fast_val O 9 (replicate 9 None) true
  && never_loses fast_val O 9 (replicate 9 None) false = true.
Proof. vm_cast_no_check (eq_refl true). Qed.

Lemma safe_for_fresh_game (p : player) (starter : bool) :
  safe_for p {| board := replicate 9 None; xIsNext := starter |}.
Proof.
  split; [reflexivity |]. exists 9%nat. cbn [board xIsNext].
  destruct p.
  - pose proof never_loses_table_X as H. apply andb_true_iff in H as [H1 H2].
    destruct starter; assumption.
  - pose proof never_loses_table_O as H. apply andb_true_iff in H as [H1 H2].
    destruct starter; assumption.
Qed.

Lemma safe_for_not_lost (p : player) (g : Game) :
  safe_for p g -> winner (calculateWinner (board g)) <> Some (opponent p).
Proof.
  intros [_ [turns H]] Hw. apply winner_is_true in Hw.
  destruct turns; cbn [never_loses] in H; rewrite Hw in H; discriminate.
Qed.

Lemma safe_for_after_move (p : player) (g : Game) (i : nat) :
  safe_for p g -> gameOver (board g) = false ->
  board g !! i = Some None ->
  (mover g = p -> In i (top_cells fast_val p (board g))) ->
  safe_for p (after_move i g).
Proof.
  intros [Hlen [turns H]] Hover Hi Htop. split.
  { cbn [after_move board]. rewrite length_insert. exact Hlen. }
  destruct turns as [| turns]; cbn [never_loses] in H;
    destruct (winner_is (calculateWinner (board g)) (opponent p)); try discriminate;
    rewrite Hover in H; [discriminate |].
  exists turns. cbn [after_move board xIsNext]. unfold mover in *.
  destruct (player_eqb (if xIsNext g then X else O) p) eqn:Hp.
  - assert (Hm : (if xIsNext g then X else O) = p).
    { destruct (xIsNext g), p; (reflexivity || discriminate). }
    specialize (Htop Hm). rewrite Hm.
    destruct (top_cells fast_val p (board g)) as [| t0 top]; [discriminate |].
    rewrite forallb_forall in H. apply H, Htop.
  - rewrite forallb_forall in H. apply H, In_empties, Hi.
Qed.

Lemma safe_for_react (p : player) (inp : Input) (g : Game) :
  safe_for p g -> input_ok inp -> plays_hard p inp ->
  exists g', react inp g = Some g' /\ safe_for p g'.
Proof.
  intros Hsafe Hok [Hbet Hhard]. pose proof Hsafe as [Hlen _].
  unfold react, input_ok in *. destruct (in_event inp) as [i | u].
  - (* a click plays X; when X is the hard side the buttons are disabled *)
    unfold cell_disabled, handleClick.
    destruct (truthy (board g !! i)) eqn:Ht; cbn [orb]; [exists g; auto |].
    destruct (gameOver (board g)) eqn:Hover; cbn [orb]; [exists g; auto |].
    destruct (in_auto inp) eqn:Hauto; cbn [orb]; [exists g; auto |].
    destruct (in_showBet inp); cbn [orb]; [exists g; auto |].
    destruct (xIsNext g) eqn:Hx; cbn [negb]; [| exists g; auto].
    assert (Hi : (i <? length (board g))%nat = true) by (apply Nat.ltb_lt; lia).
    rewrite Hi. apply falsy_cell_is_null in Ht; [| lia].
    exists (after_move i g). split; [unfold after_move, mover; rewrite Hx; reflexivity |].
    apply safe_for_after_move; try assumption.
    unfold mover. rewrite Hx. intros <-. destruct Hhard as [Hhard _]. discriminate.
  - unfold ai_effect.
    destruct (gameOver (board g)) eqn:Hover; [exists g; auto |].
    destruct (negb (in_auto inp || negb (in_auto inp)
                    && player_eqb (if xIsNext g then X else O) O)); [exists g; auto |].
    destruct (in_showBet inp); [exists g; auto |]. cbn [orb].
    destruct (player_eqb (mover g) p) eqn:Hp.
    + assert (Hm : mover g = p) by (destruct (mover g), p; (reflexivity || discriminate)).
      destruct (ai_turn_hard (in_cfg inp) u g Hlen Hok Hover Hbet) as (i & Htop & Hi & Hturn).
      { rewrite Hm. destruct p; [apply Hhard | exact Hhard]. }
      exists (after_move i g). split; [exact Hturn |].
      apply safe_for_after_move; try assumption. intros _. rewrite <- Hm. exact Htop.
    + destruct (ai_turn_moves (in_cfg inp) u g Hlen Hok Hover) as (i & Hi & Hturn).
      exists (after_move i g). split; [exact Hturn |].
      apply safe_for_after_move; try assumption.
      intros Hm. rewrite Hm in Hp. destruct p; discriminate.
Qed.

Lemma safe_for_run (p : player) (inps : list Input) (g : Game) :
  safe_for p g ->
  (forall inp, In inp inps -> input_ok inp /\ plays_hard p inp) ->
  exists g', run inps g = Some g' /\ safe_for p g'.
Proof.
  revert g. induction inps as [| inp rest IH]; intros g Hsafe Hin.
  - exists g. split; [reflexivity | exact Hsafe].
  - destruct (Hin inp (or_introl eq_refl)) as [Hok Hhard].
    destruct (safe_for_react p inp g Hsafe Hok Hhard) as (g1 & Hreact & Hsafe1).
    destruct (IH g1 Hsafe1) as (g' & Hrun & Hsafe').
    { intros inp' Hin'. apply Hin. right. exact Hin'. }
    exists g'. split; [| exact Hsafe']. cbn [run]. rewrite Hreact. exact Hrun.
Qed.

(** X9. With betting off and O at hard difficulty, O never loses: from a
    fresh game, whoever starts, after any sequence of human clicks and AI
    turns -- in manual or auto mode, X played by the human or by the engine at
    any difficulty, whatever the random draws -- [calculateWinner] never
    reports X. *)
Theorem hard_O_never_loses (inps : list Input) (randomizeStarter : bool) (u0 : Q) :
  (forall inp, In inp inps ->
     input_ok inp /\ betEnabled (in_cfg inp) = false /\ difficultyO (in_cfg inp) = hard) ->
  exists g',
    run inps (onReset_game randomizeStarter u0) = Some g'
    /\ winner (calculateWinner (board g')) <> Some X.
Proof.
  intros Hin.
  destruct (safe_for_run O inps (onReset_game randomizeStarter u0)) as (g' & Hrun & Hsafe).
  - apply safe_for_fresh_game.
  - intros inp Hinp. destruct (Hin inp Hinp) as (Hok & Hbet & Hhard).
    split; [exact Hok |]. split; assumption.
  - exists g'. split; [exact Hrun |]. apply (safe_for_not_lost O), Hsafe.
Qed.

Lemma hard_O_never_loses_witness :
  exists g',
    run [ {| in_auto := false; in_showBet := false; in_cfg := both_hard; in_event := Click 0 |};
          {| in_auto := false; in_showBet := false; in_cfg := both_hard;
             in_event := Tick (1 # 2) |};
          {| in_auto := false; in_showBet := false; in_cfg := both_hard; in_event := Click 8 |};
          {| in_auto := false; in_showBet := false; in_cfg := both_hard;
             in_event := Tick (1 # 2) |} ]
      (onReset_game false 0) = Some g'
    /\ winner (calculateWinner (board g')) <> Some X.
Proof.
  apply (hard_O_never_loses _ false 0).
  intros inp [<- | [<- | [<- | [<- | []]]]];
    (split; [unfold input_ok; cbn; first [lia | literal_draw] | split; reflexivity]).
Defined.

(** X10. In auto mode with betting off and X at hard difficulty, X never
    loses: from a fresh game, whoever starts, whatever O's difficulty and
    whatever the random draws, [calculateWinner] never reports O. *)
Theorem hard_X_never_loses (inps : list Input) (randomizeStarter : bool) (u0 : Q) :
  (forall inp, In inp inps ->
     input_ok inp /\ in_auto inp = true
     /\ betEnabled (in_cfg inp) = false /\ difficultyX (in_cfg inp) = hard) ->
  exists g',
    run inps (onReset_game randomizeStarter u0) = Some g'
    /\ winner (calculateWinner (board g')) <> Some O.
Proof.
  intros Hin.
  destruct (safe_for_run X inps (onReset_game randomizeStarter u0)) as (g' & Hrun & Hsafe).
  - apply safe_for_fresh_game.
  - intros inp Hinp. destruct (Hin inp Hinp) as (Hok & Hauto & Hbet & Hhard).
    split; [exact Hok |]. split; [exact Hbet |]. split; assumption.
  - exists g'. split; [exact Hrun |]. apply (safe_for_not_lost X), Hsafe.
Qed.

Lemma hard_X_never_loses_witness :
  exists g',
    run [ {| in_auto := true; in_showBet := false;
             in_cfg := {| betEnabled := false; difficultyX := hard; difficultyO := easy |};
             in_event := Tick (1 # 2) |};
          {| in_auto := true; in_showBet := false;
             in_cfg := {| betEnabled := false; difficultyX := hard; difficultyO := easy |};
             in_event := Tick (1 # 3) |};
          {| in_auto := true; in_showBet := false;
             in_cfg := {| betEnabled := false; difficultyX := hard; difficultyO := medium |};
             in_event := Tick (3 # 4) |} ]
      (onReset_game true (3 # 4)) = Some g'
    /\ winner (calculateWinner (board g')) <> Some O.
Proof.
  apply (hard_X_never_loses _ true (3 # 4)).
  intros inp [<- | [<- | [<- | []]]];
    (split; [unfold input_ok; cbn; literal_draw | repeat split]).
Defined.

(** ** Auto-play ends, hints are playable *)

Lemma blanks_zero_full (b : Board) : blanks b = 0%nat -> isBoardFull b = true.
Proof.
  induction b as [| v rest IH]; cbn [blanks isBoardFull forallb]; [reflexivity |].
  destruct v as [q |]; cbn [truthy]; [intros H; apply IH; lia | discriminate].
Qed.

Lemma autoplay_ends (n : nat) (cfg : Settings) (us : nat -> Q) (k : nat) (g : Game) :
  (forall m, unit_draw (us m)) ->
  length (board g) = 9%nat -> blanks (board g) = n ->
  exists final,
    autoplay n cfg us k g = Some final
    /\ gameOver (board final) = true
    /\ length (board final) = 9%nat
    /\ forall j m, board g !! j = Some (Some m) -> board final !! j = Some (Some m).
Proof.
  intros Hus. revert k g. induction n as [| n IH]; intros k g Hlen Hbl.
  - exists g. cbn [autoplay].
    assert (Hover : gameOver (board g) = true).
    { unfold gameOver. rewrite (blanks_zero_full _ Hbl). apply orb_true_r. }
    rewrite Hover. auto.
  - cbn [autoplay]. destruct (gameOver (board g)) eqn:Hover.
    { exists g. auto. }
    destruct (ai_turn_moves cfg (us k) g Hlen (Hus k) Hover) as (i & Hi & ->).
    destruct (after_move_keeps i g Hi) as [Hl Hkeep].
    destruct (IH (S k) (after_move i g)) as (final & Hrun & Hfinal & Hlenf & Hkeepf).
    { congruence. }
    { cbn [after_move board]. pose proof (blanks_place (board g) i (mover g) Hi). lia. }
    exists final. split; [exact Hrun |]. split; [exact Hfinal |]. split; [exact Hlenf |].
    intros j m Hj. apply Hkeepf, Hkeep, Hj.
Qed.

(** X11. Auto-play always ends: at every difficulty setting, betting on or
    off, and whatever the random draws, the AI turns reach a finished game
    within as many turns as the board has empty cells, and the marks already
    on the board are still there at the end. *)
Theorem autoplay_always_ends (cfg : Settings) (us : nat -> Q) (k : nat) (g : Game) :
  (forall m, unit_draw (us m)) ->
  length (board g) = 9%nat ->
  exists final,
    autoplay (blanks (board g)) cfg us k g = Some final
    /\ gameOver (board final) = true
    /\ length (board final) = 9%nat
    /\ forall j m, board g !! j = Some (Some m) -> board final !! j = Some (Some m).
Proof.
  intros Hus Hlen. apply autoplay_ends; [exact Hus | exact Hlen | reflexivity].
Qed.

Lemma autoplay_always_ends_witness :
  exists final,
    autoplay 7
      {| betEnabled := true; difficultyX := medium; difficultyO := easy |}
      (fun n => if Nat.even n then 1 # 3 else 3 # 4) 0
      {| board := [Some X; None; None; None; Some O; None; None; None; None];
         xIsNext := true |} = Some final
    /\ gameOver (board final) = true
    /\ length (board final) = 9%nat
    /\ forall j m,
         [Some X; None; None; None; Some O; None; None; None; None] !! j = Some (Some m) ->
         board final !! j = Some (Some m).
Proof.
  apply (autoplay_always_ends
           {| betEnabled := true; difficultyX := medium; difficultyO := easy |}
           (fun n => if Nat.even n then 1 # 3 else 3 # 4) 0
           {| board := [Some X; None; None; None; Some O; None; None; None; None];
              xIsNext := true |}).
  - intros n. destruct (Nat.even n); literal_draw.
  - reflexivity.
Defined.

(** X12. When the hint button acts (manual mode, X to move, game not over)
    it never stores [null]: it stores an empty cell, and a click on that cell
    is accepted and puts X there.  Otherwise it leaves the suggestion as it
    was. *)
Theorem onSuggest_is_playable (auto_mode : bool) (u : Q) (g : Game) (suggestion : option nat) :
  length (board g) = 9%nat -> unit_draw u ->
  (gameOver (board g) = false -> xIsNext g = true -> auto_mode = false ->
   exists i,
     onSuggest auto_mode u g suggestion = Some (Some i)
     /\ board g !! i = Some None
     /\ handleClick false i g = Some {| board := <[i := Some X]> (board g); xIsNext := false |})
  /\ (gameOver (board g) = true \/ xIsNext g = false \/ auto_mode = true ->
      onSuggest auto_mode u g suggestion = Some suggestion).
Proof.
  intros Hlen Hu. split.
  - intros Hover Hx ->. unfold onSuggest. rewrite Hover, Hx. cbn [negb orb].
    destruct (bestMoveFor_spec u X (board g) Hlen Hu) as [[Hnone _] | (i & s & Hret & Hi & _)].
    { exfalso. destruct (not_gameOver_blank _ Hover) as [j Hj]. exact (Hnone j Hj). }
    exists i. rewrite Hret. split; [reflexivity |]. split; [exact Hi |].
    unfold handleClick. rewrite Hi, Hover, Hx. cbn [truthy negb orb].
    assert (Hlt : (i <? length (board g))%nat = true).
    { apply Nat.ltb_lt. apply null_cell_in_range in Hi. exact Hi. }
    rewrite Hlt. reflexivity.
  - intros H. unfold onSuggest.
    destruct (gameOver (board g)); [reflexivity |].
    destruct (xIsNext g); cbn [negb orb].
    + destruct auto_mode; [reflexivity |]. destruct H as [H | [H | H]]; discriminate.
    + reflexivity.
Qed.

Lemma onSuggest_is_playable_witness :
  exists i,
    onSuggest false (1 # 2)
      {| board := [Some X; Some O; None; None; Some O; None; None; None; None];
         xIsNext := true |} None = Some (Some i)
    /\ [Some X; Some O; None; None; Some O; None; None; None; None] !! i = Some None
    /\ handleClick false i
         {| board := [Some X; Some O; None; None; Some O; None; None; None; None];
            xIsNext := true |}
       = Some {| board := <[i := Some X]>
                            [Some X; Some O; None; None; Some O; None; None; None; None];
                 xIsNext := false |}.
Proof.
  apply (proj1 (onSuggest_is_playable false (1 # 2)
                  {| board := [Some X; Some O; None; None; Some O; None; None; None; None];
                     xIsNext := true |} None eq_refl ltac:(literal_draw)));
    reflexivity.
Defined.

(** * Properties of the bankroll *)

Lemma stake_of_bounds (w : Bets) :
  0 <= bank w -> 0 <= wager w -> 0 <= multiplier w ->
  0 <= stake_of w <= bank w.
Proof.
  intros Hb Hw Hm. unfold stake_of. destruct (allIn w); [lia |].
  assert (0 <= wager w * multiplier w) by (apply Z.mul_nonneg_nonneg; assumption). lia.
Qed.

(** X13. Placing a bet stakes between 0 and the whole bank -- the whole bank
    when all-in -- and takes exactly the stake from the bank, which stays
    non-negative: the clamp [Math.max(0, b - stake)] never cuts anything. *)
Theorem placeBet_takes_the_stake (choice : player) (w : Bets) :
  0 <= bank w -> 0 <= wager w -> 0 <= multiplier w ->
  0 <= currentStake (placeBet choice w) <= bank w
  /\ bank (placeBet choice w) = bank w - currentStake (placeBet choice w)
  /\ 0 <= bank (placeBet choice w)
  /\ (allIn w = true -> currentStake (placeBet choice w) = bank w)
  /\ (allIn w = false ->
      currentStake (placeBet choice w) = Z.min (bank w) (wager w * multiplier w))
  /\ betChoice (placeBet choice w) = Some choice
  /\ showBet (placeBet choice w) = false.
Proof.
  intros Hb Hw Hm. pose proof (stake_of_bounds w Hb Hw Hm) as Hs.
  cbn [placeBet currentStake bank betChoice showBet].
  repeat split; try lia; unfold stake_of; intros ->; reflexivity.
Qed.

Lemma placeBet_takes_the_stake_witness :
  0 <= currentStake (placeBet X {| bank := 120; wager := 50; multiplier := 3; allIn := false;
                                   currentStake := 0; streak := 2; betChoice := None;
                                   showBet := true |}) <= 120
  /\ bank (placeBet X {| bank := 120; wager := 50; multiplier := 3; allIn := false;
                         currentStake := 0; streak := 2; betChoice := None;
                         showBet := true |}) = 0.
Proof.
  pose proof (placeBet_takes_the_stake X
                {| bank := 120; wager := 50; multiplier := 3; allIn := false;
                   currentStake := 0; streak := 2; betChoice := None; showBet := true |}
                ltac:(cbn; lia) ltac:(cbn; lia) ltac:(cbn; lia)) as (H1 & H2 & _).
  split; [exact H1 | reflexivity].
Defined.

Lemma settle_guard (enabled : bool) (c : player) (w : Bets) :
  enabled && truthy (Some (betChoice (placeBet c w))) && (0 <? currentStake (placeBet c w))
  = enabled && (0 <? stake_of w).
Proof. cbn. destruct enabled; reflexivity. Qed.

(** X14. A draw refunds the bet: with betting enabled, placing a bet and
    settling a game without winner leaves bank and streak exactly as they
    were before the bet. *)
Theorem draw_refunds_the_bet (choice : player) (w : Bets) :
  0 <= bank w -> 0 <= wager w -> 0 <= multiplier w ->
  bank (settleBet true None (placeBet choice w)) = bank w
  /\ streak (settleBet true None (placeBet choice w)) = streak w.
Proof.
  intros Hb Hw Hm. pose proof (stake_of_bounds w Hb Hw Hm) as Hs.
  unfold settleBet. rewrite settle_guard. cbn [andb].
  destruct (Z.ltb_spec 0 (stake_of w)); cbn; lia.
Qed.

Lemma draw_refunds_the_bet_witness :
  bank (settleBet true None
          (placeBet O {| bank := 1000; wager := 100; multiplier := 2; allIn := false;
                         currentStake := 0; streak := 1; betChoice := None;
                         showBet := true |})) = 1000
  /\ streak (settleBet true None
               (placeBet O {| bank := 1000; wager := 100; multiplier := 2; allIn := false;
                              currentStake := 0; streak := 1; betChoice := None;
                              showBet := true |})) = 1.
Proof.
  apply (draw_refunds_the_bet O
           {| bank := 1000; wager := 100; multiplier := 2; allIn := false;
              currentStake := 0; streak := 1; betChoice := None; showBet := true |});
    cbn; lia.
Defined.

Lemma strict_eqb_choice (c p : player) :
  strict_eqb (Some (Some c)) (Some (Some p)) = player_eqb c p.
Proof. reflexivity. Qed.

(** X15. A correct bet pays what was announced: with betting enabled, after
    placing a bet on the side that then wins, the bank is the bank before the
    bet plus the "profit on win" the overlay previewed, which is also the
    profit the header shows while the bet is on (the stake plus 5 per game of
    the streak before this win); the streak grows by one.  A bet of 0 changes
    neither bank nor streak. *)
Theorem correct_bet_pays_the_shown_profit (choice : player) (w : Bets) :
  0 <= bank w -> 0 <= wager w -> 0 <= multiplier w ->
  bank (settleBet true (Some choice) (placeBet choice w)) = bank w + preview_profit w
  /\ (0 < currentStake (placeBet choice w) ->
      bank (settleBet true (Some choice) (placeBet choice w))
      = bank w + shown_profit (placeBet choice w)
      /\ streak (settleBet true (Some choice) (placeBet choice w)) = streak w + 1)
  /\ (currentStake (placeBet choice w) = 0 ->
      bank (settleBet true (Some choice) (placeBet choice w)) = bank w
      /\ streak (settleBet true (Some choice) (placeBet choice w)) = streak w).
Proof.
  intros Hb Hw Hm. pose proof (stake_of_bounds w Hb Hw Hm) as Hs.
  unfold settleBet. rewrite settle_guard. cbn [andb]. unfold preview_profit, shown_profit.
  cbn [placeBet betChoice currentStake bank streak]. cbv zeta. rewrite strict_eqb_choice.
  assert (Hc : player_eqb choice choice = true) by (destruct choice; reflexivity).
  rewrite Hc.
  destruct (Z.ltb_spec 0 (stake_of w)); cbn [placeBet bank streak currentStake];
    repeat split; intros; lia.
Qed.

Lemma correct_bet_pays_the_shown_profit_witness :
  bank (settleBet true (Some X)
          (placeBet X {| bank := 1000; wager := 50; multiplier := 2; allIn := false;
                         currentStake := 0; streak := 3; betChoice := None;
                         showBet := true |})) = 1115.
Proof.
  pose proof (correct_bet_pays_the_shown_profit X
                {| bank := 1000; wager := 50; multiplier := 2; allIn := false;
                   currentStake := 0; streak := 3; betChoice := None; showBet := true |}
                ltac:(cbn; lia) ltac:(cbn; lia) ltac:(cbn; lia)) as (H & _).
  exact H.
Defined.

(** X16. A wrong bet costs exactly the stake and ends the streak: with
    betting enabled, after placing a positive bet on the side that then
    loses, the bank is the bank before the bet minus the stake and the streak
    is 0. *)
Theorem wrong_bet_costs_the_stake (choice : player) (w : Bets) :
  0 <= bank w -> 0 <= wager w -> 0 <= multiplier w ->
  0 < currentStake (placeBet choice w) ->
  bank (settleBet true (Some (opponent choice)) (placeBet choice w))
  = bank w - currentStake (placeBet choice w)
  /\ streak (settleBet true (Some (opponent choice)) (placeBet choice w)) = 0.
Proof.
  intros Hb Hw Hm Hpos. pose proof (stake_of_bounds w Hb Hw Hm) as Hs.
  unfold settleBet. rewrite settle_guard. cbn [andb].
  cbn [placeBet betChoice currentStake bank streak] in *. rewrite strict_eqb_choice.
  assert (Hc : player_eqb choice (opponent choice) = false) by (destruct choice; reflexivity).
  rewrite Hc. destruct (Z.ltb_spec 0 (stake_of w)); cbn [placeBet bank streak currentStake]; lia.
Qed.

Lemma wrong_bet_costs_the_stake_witness :
  bank (settleBet true (Some (opponent O))
          (placeBet O {| bank := 300; wager := 0; multiplier := 1; allIn := true;
                         currentStake := 0; streak := 4; betChoice := None;
                         showBet := true |})) = 300 - 300
  /\ streak (settleBet true (Some (opponent O))
               (placeBet O {| bank := 300; wager := 0; multiplier := 1; allIn := true;
                              currentStake := 0; streak := 4; betChoice := None;
                              showBet := true |})) = 0.
Proof.
  apply (wrong_bet_costs_the_stake O
           {| bank := 300; wager := 0; multiplier := 1; allIn := true;
              currentStake := 0; streak := 4; betChoice := None; showBet := true |});
    cbn; lia.
Defined.

(** X17. If betting is switched off before the game ends, the bet is not
    settled: whatever the result, even a draw or a correct bet, the bank stays
    at the bank before the bet minus the stake, and the streak is untouched. *)
Theorem disabled_betting_forfeits_the_stake (choice : player) (won : Mark) (w : Bets) :
  0 <= bank w -> 0 <= wager w -> 0 <= multiplier w ->
  bank (settleBet false won (placeBet choice w)) = bank w - currentStake (placeBet choice w)
  /\ streak (settleBet false won (placeBet choice w)) = streak w.
Proof.
  intros Hb Hw Hm. pose proof (stake_of_bounds w Hb Hw Hm) as Hs.
  unfold settleBet. cbn. lia.
Qed.

Lemma disabled_betting_forfeits_the_stake_witness :
  bank (settleBet false None
          (placeBet X {| bank := 500; wager := 100; multiplier := 1; allIn := false;
                         currentStake := 0; streak := 0; betChoice := None;
                         showBet := true |})) = 500 - 100.
Proof.
  pose proof (disabled_betting_forfeits_the_stake X None
                {| bank := 500; wager := 100; multiplier := 1; allIn := false;
                   currentStake := 0; streak := 0; betChoice := None; showBet := true |}
                ltac:(cbn; lia) ltac:(cbn; lia) ltac:(cbn; lia)) as [H _].
  exact H.
Defined.

(** X18. A side picked by the countdown stakes nothing: after a reset the
    countdown, if the overlay is up, picks a side and closes the overlay, and
    settling the game that follows leaves bank and streak as they were,
    whatever the result. *)
Theorem countdown_pick_stakes_nothing (enabled skipBet enabled' : bool) (u : Q)
    (won : Mark) (w : Bets) :
  (showBet (onReset_bets enabled skipBet w) = true ->
   betChoice (autoSelect u (onReset_bets enabled skipBet w))
   = Some (if below_half u then X else O)
   /\ showBet (autoSelect u (onReset_bets enabled skipBet w)) = false)
  /\ bank (settleBet enabled' won (autoSelect u (onReset_bets enabled skipBet w))) = bank w
  /\ streak (settleBet enabled' won (autoSelect u (onReset_bets enabled skipBet w))) = streak w.
Proof.
  unfold autoSelect, settleBet.
  destruct (showBet (onReset_bets enabled skipBet w)) eqn:Hshow.
  - cbn. split; [intros _; split; reflexivity |].
    rewrite andb_false_r. auto.
  - split; [discriminate |]. cbn. rewrite !andb_false_r. auto.
Qed.

Lemma countdown_pick_stakes_nothing_witness :
  betChoice (autoSelect (1 # 4) (onReset_bets true false initial_bets)) = Some X
  /\ showBet (autoSelect (1 # 4) (onReset_bets true false initial_bets)) = false.
Proof.
  apply (proj1 (countdown_pick_stakes_nothing true false true (1 # 4) (Some X) initial_bets)).
  reflexivity.
Defined.

(** ** The bankroll invariant *)

Lemma bet_step_ok (a : bet_action) (w : Bets) :
  action_ok a -> bets_ok w -> bets_ok (bet_step a w).
Proof.
  intros Ha H. pose proof H as (Hb & Hs & Hc & Hw & Hm & Hshow).
  destruct a as [choice | enabled won | enabled skipBet | u | amt | | m | on];
    cbn [bet_step action_ok] in *.
  - destruct (showBet w) eqn:Hsh; cbn [andb]; [| exact H].
    destruct (Z.ltb_spec 0 (bank w)); [| exact H].
    pose proof (stake_of_bounds w Hb Hw ltac:(lia)).
    unfold bets_ok. cbn [placeBet bank streak currentStake wager multiplier showBet betChoice].
    repeat split; try lia; try discriminate.
  - unfold settleBet.
    destruct (enabled && truthy (Some (betChoice w)) && (0 <? currentStake w)) eqn:Hg;
      [| exact H].
    apply andb_true_iff in Hg as [Hg _]. apply andb_true_iff in Hg as [_ Hchoice].
    assert (Hnoshow : showBet w = false).
    { destruct (showBet w); [| reflexivity].
      destruct (Hshow eq_refl) as (_ & Hnone & _). rewrite Hnone in Hchoice. discriminate. }
    unfold bets_ok.
    destruct won as [p |]; [destruct (strict_eqb (Some (betChoice w)) (Some (Some p))) |];
      cbn [bank streak currentStake wager multiplier showBet betChoice];
      rewrite Hnoshow; repeat split; try lia; try discriminate.
  - unfold bets_ok.
    cbn [onReset_bets bank streak currentStake wager multiplier showBet betChoice].
    repeat split; try lia.
    all: match goal with
         | Hon : (if ?sb then _ else _) = true |- _ =>
             destruct sb; [discriminate |];
             apply andb_true_iff in Hon as [_ Hon]; apply Z.ltb_lt in Hon; exact Hon
         end.
  - unfold autoSelect. destruct (showBet w) eqn:Hsh; [| exact H].
    destruct (betChoice w); [exact H |].
    unfold bets_ok. cbn [bank streak currentStake wager multiplier showBet betChoice].
    repeat split; try lia; try discriminate.
  - destruct (showBet w) eqn:Hsh; [| exact H].
    assert (0 <= amt) by (destruct Ha as [<- | [<- | [<- | [<- | []]]]]; lia).
    unfold bets_ok.
    cbn [chooseWager bank streak currentStake wager multiplier showBet betChoice].
    destruct (Hshow ltac:(first [exact Hsh | reflexivity])) as (Hpos & Hnone & Hzero).
    try rewrite Hsh. repeat split; try lia; try assumption.
  - destruct (showBet w) eqn:Hsh; [| exact H].
    unfold bets_ok.
    cbn [toggleAllIn bank streak currentStake wager multiplier showBet betChoice].
    destruct (Hshow ltac:(first [exact Hsh | reflexivity])) as (Hpos & Hnone & Hzero).
    try rewrite Hsh. repeat split; try lia; try assumption.
  - destruct (showBet w && negb (allIn w)) eqn:Hg; [| exact H].
    apply andb_true_iff in Hg as [Hsh _].
    assert (1 <= m) by (destruct Ha as [<- | [<- | [<- | []]]]; lia).
    unfold bets_ok.
    cbn [chooseMultiplier bank streak currentStake wager multiplier showBet betChoice].
    destruct (Hshow ltac:(first [exact Hsh | reflexivity])) as (Hpos & Hnone & Hzero).
    try rewrite Hsh. repeat split; try lia; try assumption.
  - unfold onCheckedChange. destruct on; [exact H |].
    unfold bets_ok. cbn [bank streak currentStake wager multiplier showBet betChoice].
    repeat split; try lia; try discriminate.
Qed.

(** X19. Whatever is done to the bankroll through the interface, in any
    order -- bets, settlements, resets, countdown picks, chips, multipliers,
    the betting switch -- starting from the initial state: the bank, the
    streak and the stake are never negative, and whenever the betting overlay
    is shown the bank is positive and no bet is on for the game. *)
Theorem bankroll_invariant (acts : list bet_action) :
  (forall a, In a acts -> action_ok a) ->
  0 <= bank (run_bets acts initial_bets)
  /\ 0 <= streak (run_bets acts initial_bets)
  /\ 0 <= currentStake (run_bets acts initial_bets)
  /\ (showBet (run_bets acts initial_bets) = true ->
      0 < bank (run_bets acts initial_bets)
      /\ betChoice (run_bets acts initial_bets) = None
      /\ currentStake (run_bets acts initial_bets) = 0).
Proof.
  intros Hacts.
  assert (Hok : bets_ok (run_bets acts initial_bets)).
  { unfold run_bets.
    assert (Hinit : bets_ok initial_bets).
    { unfold bets_ok. cbn. repeat split; try lia; discriminate. }
    revert Hinit. generalize initial_bets.
    induction acts as [| a rest IH]; intros w Hw; [exact Hw |].
    cbn [fold_left]. apply IH.
    - intros a' Ha'. apply Hacts. right. exact Ha'.
    - apply bet_step_ok; [apply Hacts; left; reflexivity | exact Hw]. }
  destruct Hok as (Hb & Hs & Hc & _ & _ & Hshow). auto.
Qed.

Lemma bankroll_invariant_witness :
  0 <= bank (run_bets [Switch true; Reset true false; Chip 100; Mult 3; Place X;
                       Settle true (Some O); Reset true false; AllIn; Place O;
                       Settle true (Some O)] initial_bets)
  /\ 0 <= streak (run_bets [Switch true; Reset true false; Chip 100; Mult 3; Place X;
                            Settle true (Some O); Reset true false; AllIn; Place O;
                            Settle true (Some O)] initial_bets).
Proof.
  assert (Hok : forall a,
             In a [Switch true; Reset true false; Chip 100; Mult 3; Place X;
                   Settle true (Some O); Reset true false; AllIn; Place O;
                   Settle true (Some O)] -> action_ok a).
  { intros a Ha. repeat (destruct Ha as [<- | Ha]; [cbn; auto 10 |]). destruct Ha. }
  pose proof (bankroll_invariant _ Hok) as (H1 & H2 & _).
  split; assumption.
Defined.
